(** * A shallow embedding of the catalogue crawler of [src/main.py]

    The crawler walks a paginated listing, extracts one (registration number,
    detail URL) pair per table row, fetches every detail page behind a
    robots.txt gate and writes one JSON file per listing page.

    Effects are explicit: a [world] holds the output directory and the
    chronological trace of sleeps and requests; the remote side is a
    deterministic oracle that sees the trace so far.  Library calls whose code
    is not part of the repository ([urljoin], [urlparse], the HTML parser, the
    text methods [str.strip], [str.isdigit] and [int], the rule matching of
    [urllib.robotparser]) are fields of an environment record [Env]; a library
    call that can raise [ValueError] returns a [result], and the exception is
    followed through the functions that have no handler for it. *)

From Stdlib Require Import ZArith QArith List Lia Bool Ascii String.
From stdpp Require Import base option list sorting gmap strings pretty.

Local Open Scope string_scope.
Local Open Scope list_scope.
Local Open Scope Z_scope.

Set Warnings "-register-all".

(** ** General settings (lines 17-21) *)

Definition MAX_LIST_RETRIES : Z := 3.
Definition MAX_DETAIL_RETRIES : Z := 3.
Definition STOP_ON_CONSECUTIVE_LIST_FAILS : Z := 5.

(** The factor [1.5] of [backoff = 1.5 * attempt]; the product is exact in
    binary floating point for every attempt number the loop can reach, so a
    rational is a faithful reading. *)
Definition backoff_base : Q := (3 # 2)%Q.

Definition backoff (attempt : Z) : Q := (backoff_base * inject_Z attempt)%Q.

(** Python's [range(a, b)]. *)
Definition range (a b : Z) : list Z := seqZ a (b - a).

(** ** Exceptions

    What a call that can raise gives: its value, or [ValueError], the one
    exception that [urljoin] and [int] raise and that the program lets
    through. *)
Inductive result (A : Type) :=
| Ok (a : A)
| ValueError.

Arguments Ok {A} a.
Arguments ValueError {A}.

(** ** Responses, events and the world *)

(** A [requests.Response], reduced to the two fields the program reads. *)
Record Response := mkResponse { status_code : Z; text : string }.

(** What one [session.get] does: it returns a response or raises
    [requests.RequestException]. *)
Inductive outcome :=
| Reply (resp : Response)
| RequestError.

(** What [urlopen(robots_url)], [f.read()] and [raw.decode("utf-8")] do inside
    [RobotFileParser.read]. *)
Inductive robots_outcome :=
| RobotsURLError                      (* URLError, timeout, reset: not an HTTPError *)
| RobotsHTTPError (code : Z)          (* urllib.error.HTTPError *)
| RobotsUndecodable                   (* the body is not UTF-8: decode raises *)
| RobotsLines (lines : list string).  (* the decoded body, split in lines *)

Inductive event :=
| Politeness                 (* time.sleep(random.uniform(DELAY_MIN, DELAY_MAX)) *)
| Backoff (seconds : Q)      (* time.sleep(backoff) *)
| Get (url : string)         (* session.get(url, ...) *)
| UrlOpen (url : string).    (* urllib.request.urlopen(url), by rp.read() *)

(** The output directory maps a page index to the mapping stored in
    [page_NNN.json] ([{:03d}] is injective on integers, so the page index stands
    for the file name). *)
Record world := mkWorld {
  files : gmap Z (gmap string string);
  trace : list event
}.

Definition emit (es : list event) (w : world) : world :=
  {| files := files w; trace := trace w ++ es |}.

Definition write_file (page : Z) (m : gmap string string) (w : world) : world :=
  {| files := <[page := m]> (files w); trace := trace w |}.

(** ** A state monad over the world *)

Definition M (A : Type) : Type := world -> A * world.

Definition ret {A} (a : A) : M A := fun w => (a, w).

Definition bind {A B} (m : M A) (k : A -> M B) : M B :=
  fun w => let (a, w') := m w in k a w'.

Declare Scope crawl_scope.
Delimit Scope crawl_scope with crawl.
Notation "x <- m ;; k" := (bind m (fun x => k))
  (at level 100, m at next level, right associativity) : crawl_scope.
Notation "m ;;; k" := (bind m (fun _ => k))
  (at level 100, right associativity) : crawl_scope.
Local Open Scope crawl_scope.

Definition sleep_politeness : M unit := fun w => (tt, emit [Politeness] w).
Definition sleep (seconds : Q) : M unit := fun w => (tt, emit [Backoff seconds] w).

(** ** Strings *)

Fixpoint lstrip_with (p : ascii -> bool) (s : string) : string :=
  match s with
  | EmptyString => EmptyString
  | String c s' => if p c then lstrip_with p s' else s
  end.

(** [s.rstrip(chars)], for the characters [p] holds of; it is used with the
    one character ["/"] (line 334). *)
Definition rstrip_with (p : ascii -> bool) (s : string) : string :=
  String.rev (lstrip_with p (String.rev s)).

(** [not s], for a string [s] *)
Definition is_empty (s : string) : bool :=
  match s with EmptyString => true | _ => false end.

(** [max(nums) if nums else None] *)
Definition max_or_none (nums : list Z) : option Z :=
  match nums with
  | [] => None
  | n :: rest => Some (foldl Z.max n rest)
  end.

(** ** The parsed document *)

(** A BeautifulSoup tree: strings, comments (which [get_text] leaves out) and
    tags.  The [class] attribute is multi-valued in bs4 and is kept apart from
    the other attributes. *)
Inductive node :=
| Text (s : string)
| Comment (s : string)
| Tag (name : string) (classes : list string)
      (attrs : list (string * string)) (children : list node).

(** Everything below a tag, in document order ([Tag.descendants]). *)
Fixpoint descendants (n : node) : list node :=
  match n with
  | Tag _ _ _ children =>
      (fix walk (l : list node) : list node :=
         match l with
         | [] => []
         | c :: l' => c :: descendants c ++ walk l'
         end) children
  | _ => []
  end.

(** [tag.get(key)] *)
Definition attr_get (key : string) (n : node) : option string :=
  match n with
  | Tag _ _ attrs _ =>
      snd <$> List.find (fun kv => String.eqb (fst kv) key) attrs
  | _ => None
  end.

Definition has_attr (key : string) (n : node) : bool :=
  match attr_get key n with Some _ => true | None => false end.

Definition is_tag (name : string) (n : node) : bool :=
  match n with
  | Tag nm _ _ _ => String.eqb nm name
  | _ => false
  end.

(** [tag.find_all(name)] *)
Definition find_all (name : string) (n : node) : list node :=
  List.filter (is_tag name) (descendants n).

(** [tag.find_all(name, key=True)]: the tags of that name that carry the
    attribute. *)
Definition find_all_with (name key : string) (n : node) : list node :=
  List.filter (fun d => is_tag name d && has_attr key d) (descendants n).

(** [tag.find(name)] *)
Definition find_first (name : string) (n : node) : option node :=
  head (find_all name n).

(** One compound CSS selector [name.class1.class2[attr]]. *)
Record compound := mkCompound {
  sel_name : string;
  sel_classes : list string;
  sel_attrs : list string
}.

Definition matches_compound (c : compound) (n : node) : bool :=
  match n with
  | Tag name classes attrs _ =>
      String.eqb name (sel_name c)
      && forallb (fun k => existsb (String.eqb k) classes) (sel_classes c)
      && forallb (fun a => has_attr a n) (sel_attrs c)
  | _ => false
  end.

(** The descendant combinator: [outer] lists the compounds left of the last
    one, innermost first; [ancestors] lists the ancestors, nearest first. *)
Fixpoint ancestors_match (ancestors : list node) (outer : list compound)
    {struct ancestors} : bool :=
  match outer, ancestors with
  | [], _ => true
  | _ :: _, [] => false
  | c :: outer', a :: ancestors' =>
      if matches_compound c a then ancestors_match ancestors' outer'
      else ancestors_match ancestors' outer
  end.

Fixpoint select_under (last : compound) (outer : list compound)
    (ancestors : list node) (n : node) : list node :=
  match n with
  | Tag _ _ _ children =>
      (fix walk (l : list node) : list node :=
         match l with
         | [] => []
         | c :: l' =>
             (if matches_compound last c && ancestors_match (n :: ancestors) outer
              then [c] else [])
             ++ select_under last outer (n :: ancestors) c ++ walk l'
         end) children
  | _ => []
  end.

(** [tag.select(selector)], the selector being a chain of compounds joined by
    the descendant combinator, written left to right. *)
Definition select (selector : list compound) (n : node) : list node :=
  match rev selector with
  | [] => []
  | last :: outer => select_under last outer [] n
  end.

(** [tag.select_one(selector)] *)
Definition select_one (selector : list compound) (n : node) : option node :=
  head (select selector n).

(** ["div.table-responsive table.table.s-row tbody"] *)
Definition sel_results_tbody : list compound :=
  [ mkCompound "div" ["table-responsive"] [];
    mkCompound "table" ["table"; "s-row"] [];
    mkCompound "tbody" [] [] ].

(** ["tr"], ["a[href]"] and ["ul.pagination"] *)
Definition sel_tr : list compound := [ mkCompound "tr" [] [] ].
Definition sel_a_href : list compound := [ mkCompound "a" [] ["href"] ].
Definition sel_ul_pagination : list compound := [ mkCompound "ul" ["pagination"] [] ].

(** ** robots.txt ([urllib.robotparser], as far as the program uses it)

    The fields and the methods [read] and [can_fetch] follow CPython's
    [Lib/urllib/robotparser.py]; the parsing of the rule lines and their
    matching stay abstract (see [robots_rules] below). *)

Record RobotFileParser := mkRobotFileParser {
  rp_url : string;
  disallow_all : bool;
  allow_all : bool;
  last_checked : Z;
  (** the lines given to [parse]; they stand for [entries] and
      [default_entry], which are a function of them *)
  parsed_lines : list string
}.

(** [RobotFileParser()] *)
Definition RobotFileParser_new : RobotFileParser :=
  mkRobotFileParser "" false false 0 [].

Definition set_url (url : string) (rp : RobotFileParser) : RobotFileParser :=
  mkRobotFileParser url (disallow_all rp) (allow_all rp) (last_checked rp) (parsed_lines rp).

(** How a call ends. *)
Inductive completion := Returned | Raised.

(** ** The environment: library code and the remote side *)

Record Env := mkEnv {
  BASE_URL : string;
  (** [urllib.parse.urljoin(base, url)]; it raises [ValueError] on a
      reference it cannot split, such as ["//["] *)
  urljoin : string -> string -> result string;
  (** [urllib.parse.urlparse(url).path] *)
  urlparse_path : string -> string;
  (** [BeautifulSoup(html, "lxml")] *)
  BeautifulSoup : string -> node;
  (** [s.strip()]: Python's own notion of white space *)
  strip : string -> string;
  (** [s.isdigit()]: Python's own notion of a digit *)
  isdigit : string -> bool;
  (** [int(s)]; it raises [ValueError] on a string that is no decimal
      number, which [isdigit] does not exclude *)
  int : string -> result Z;
  (** the remote host, answering a request after the events so far *)
  transport : list event -> string -> outcome;
  (** the fetch of robots.txt *)
  robots_fetch : list event -> string -> robots_outcome;
  (** [time.time()], never zero *)
  time_now : positive;
  (** [RobotFileParser.parse] followed by the entry matching of
      [RobotFileParser.can_fetch] (user agent, url); [None] when it raises *)
  robots_rules : list string -> string -> string -> option bool;
  (** [get_user_agent()] *)
  user_agent : string
}.

Section Crawler.

Context (env : Env).

(** The strings [get_text(strip=True)] joins: every text below the tag,
    stripped, the empty ones dropped. *)
Definition stripped_strings (n : node) : list string :=
  omap (fun d =>
          match d with
          | Text s => let s' := strip env s in if is_empty s' then None else Some s'
          | _ => None
          end) (descendants n).

(** [tag.get_text(strip=True)] *)
Definition get_text_strip (n : node) : string :=
  String.concat "" (stripped_strings n).

(** ** robots.txt parser (lines 48-70) *)

(** [rp.read()]: the object after the call, and whether the call raised. *)
Definition rp_read (rp : RobotFileParser) : M (RobotFileParser * completion) :=
  fun w =>
    let w' := emit [UrlOpen (rp_url rp)] w in
    match robots_fetch env (trace w) (rp_url rp) with
    | RobotsURLError => ((rp, Raised), w')
    | RobotsHTTPError code =>
        if (code =? 401) || (code =? 403) then
          ((mkRobotFileParser (rp_url rp) true (allow_all rp)
              (last_checked rp) (parsed_lines rp), Returned), w')
        else if (400 <=? code) && (code <? 500) then
          ((mkRobotFileParser (rp_url rp) (disallow_all rp) true
              (last_checked rp) (parsed_lines rp), Returned), w')
        else ((rp, Returned), w')
    | RobotsUndecodable => ((rp, Raised), w')
    | RobotsLines lines =>
        (* self.parse(lines) starts with self.modified() *)
        ((mkRobotFileParser (rp_url rp) (disallow_all rp) (allow_all rp)
            (Z.pos (time_now env)) lines, Returned), w')
    end.

(** [rp.can_fetch(useragent, url)]; [None] when it raises.  The three flag
    tests come first and cannot raise; in particular an object that was never
    read ([last_checked] still 0) allows no url. *)
Definition rp_can_fetch (rp : RobotFileParser) (useragent url : string) : option bool :=
  if disallow_all rp then Some false
  else if allow_all rp then Some true
  else if last_checked rp =? 0 then Some false
  else robots_rules env (parsed_lines rp) useragent url.

(** The call of [urljoin] in line 51 stands before the [try], so its
    [ValueError] leaves the function; both the [try] and the [except] branch
    fall through to [return rp]. *)
Definition init_robots_parser (base_url : string) : M (result RobotFileParser) :=
  let rp := RobotFileParser_new in
  match urljoin env base_url "/robots.txt" with
  | ValueError => ret ValueError
  | Ok robots_url =>
      r <- rp_read (set_url robots_url rp) ;;
      ret (Ok (fst r))
  end.

(** The [try] of lines 64-70 holds the call of [urljoin] as well as the one
    of [rp.can_fetch]: whichever raises, the answer is [True]. *)
Definition can_fetch (rp : RobotFileParser) (ua path_or_url : string) : bool :=
  let full_path :=
    if String.prefix "http" path_or_url then Ok path_or_url
    else urljoin env (BASE_URL env) path_or_url in
  match full_path with
  | Ok full_path =>
      match rp_can_fetch rp ua full_path with
      | Some b => b
      | None => true        (* except Exception: return True *)
      end
  | ValueError => true      (* except Exception: return True *)
  end.

(** ** HTTP session and polite GET (lines 86-110) *)

Definition session_get (url : string) : M outcome :=
  fun w => (transport env (trace w) url, emit [Get url] w).

(** [resp.status_code in (429,) or resp.status_code >= 500] *)
Definition retry_status (s : Z) : bool := (s =? 429) || (500 <=? s).

Fixpoint polite_get_loop (url : string) (attempts : list Z) : M (option Response) :=
  match attempts with
  | [] => ret None
  | attempt :: rest =>
      sleep_politeness ;;;
      o <- session_get url ;;
      match o with
      | Reply resp =>
          if retry_status (status_code resp)
          then sleep (backoff attempt) ;;; polite_get_loop url rest
          else ret (Some resp)
      | RequestError =>
          sleep (backoff attempt) ;;; polite_get_loop url rest
      end
  end.

Definition polite_get (url : string) (retries : Z) : M (option Response) :=
  polite_get_loop url (range 1 (retries + 1)).

(** ** Listing parser (lines 115-167) *)

(** The loop of lines 129-141.  Nothing handles the [ValueError] of
    [urljoin] (line 140): it ends the loop and the function. *)
Fixpoint listing_loop (rows : list node) (items : list (string * string))
    : result (list (string * string)) :=
  match rows with
  | [] => Ok items
  | tr :: rest =>
      let tds := find_all "td" tr in
      if Z.of_nat (length tds) <? 5 then listing_loop rest items
      else
        match head tds, last tds with
        | Some first_td, Some last_td =>
            let reg_no := strip env (get_text_strip first_td) in
            match select_one sel_a_href last_td with
            | Some view_link =>
                if is_empty reg_no then listing_loop rest items
                else
                  match attr_get "href" view_link with
                  | Some href =>
                      match urljoin env (BASE_URL env) href with
                      | Ok detail_url =>
                          listing_loop rest (items ++ [(reg_no, detail_url)])
                      | ValueError => ValueError
                      end
                  | None => listing_loop rest items   (* a[href] has an href *)
                  end
            | None => listing_loop rest items
            end
        | _, _ => listing_loop rest items             (* len(tds) >= 5 here *)
        end
  end.

Definition parse_listing_for_items (html : string) : result (list (string * string)) :=
  let soup := BeautifulSoup env html in
  match select_one sel_results_tbody soup with
  | None => Ok []
  | Some tbody => listing_loop (select sel_tr tbody) []
  end.

(** The loop of lines 157-160.  Nothing handles the [ValueError] of [int]
    (line 160). *)
Fixpoint anchor_numbers (anchors : list node) (nums : list Z) : result (list Z) :=
  match anchors with
  | [] => Ok nums
  | a :: rest =>
      let txt := get_text_strip a in
      if isdigit env txt then
        match int env txt with
        | Ok n => anchor_numbers rest (nums ++ [n])
        | ValueError => ValueError
        end
      else anchor_numbers rest nums
  end.

Definition find_last_page_number (html : string) : result (option Z) :=
  let soup := BeautifulSoup env html in
  match select_one sel_ul_pagination soup with
  | None => Ok None
  | Some ul =>
      match anchor_numbers (find_all_with "a" "href" ul) [] with
      | Ok nums =>
          match find_first "span" ul with
          | Some sp =>
              if isdigit env (get_text_strip sp) then
                match int env (get_text_strip sp) with
                | Ok n => Ok (max_or_none (nums ++ [n]))
                | ValueError => ValueError
                end
              else Ok (max_or_none nums)
          | None => Ok (max_or_none nums)
          end
      | ValueError => ValueError
      end
  end.

(** ** Detail fetcher, storage and page processor (lines 172-232) *)

(** [bool(resp)] is [resp.ok]: no 4xx and no 5xx status. *)
Definition Response_bool (resp : Response) : bool :=
  negb ((400 <=? status_code resp) && (status_code resp <? 600)).

(** [not resp or resp.status_code != 200] *)
Definition failed_response (resp : option Response) : bool :=
  match resp with
  | None => true
  | Some r => negb (Response_bool r) || negb (status_code r =? 200)
  end.

Definition fetch_detail_html (detail_url : string) : M (option string) :=
  resp <- polite_get detail_url MAX_DETAIL_RETRIES ;;
  match resp with
  | Some r => if failed_response resp then ret None else ret (Some (text r))
  | None => ret None
  end.

Definition save_page_json (page_index : Z) (mapping : gmap string string) : M unit :=
  fun w => (tt, write_file page_index mapping w).

(** [LIST_URL_TEMPLATE.format(page=page_index)], the template being
    [BASE_URL.rstrip('/') + "/home/DrugSearch?page={page}"] (line 334). *)
Definition list_url (page_index : Z) : string :=
  rstrip_with (Ascii.eqb "/") (BASE_URL env) +:+ "/home/DrugSearch?page=" +:+ pretty page_index.

Fixpoint detail_loop (rp : RobotFileParser) (ua : string)
    (items : list (string * string)) (result_map : gmap string string)
    : M (gmap string string) :=
  match items with
  | [] => ret result_map
  | (reg_no, detail_url) :: rest =>
      let path := urlparse_path env detail_url in
      if negb (can_fetch rp ua path) then detail_loop rp ua rest result_map
      else
        html <- fetch_detail_html detail_url ;;
        match html with
        | Some content =>
            if is_empty content then detail_loop rp ua rest result_map
            else detail_loop rp ua rest (<[reg_no := content]> result_map)
        | None => detail_loop rp ua rest result_map
        end
  end.

(** Line 211 calls [parse_listing_for_items] outside any [try]: its
    [ValueError] leaves [process_one_page], after the listing fetch and
    before anything is saved. *)
Definition process_one_page (rp : RobotFileParser) (ua : string) (page_index : Z)
    : M (result bool) :=
  if negb (can_fetch rp ua "/home/DrugSearch") then ret (Ok false)
  else
    resp <- polite_get (list_url page_index) MAX_LIST_RETRIES ;;
    match resp with
    | Some r =>
        if failed_response resp then ret (Ok false)
        else
          match parse_listing_for_items (text r) with
          | Ok items =>
              result_map <- detail_loop rp ua items ∅ ;;
              save_page_json page_index result_map ;;;
              ret (Ok true)
          | ValueError => ret ValueError
          end
    | None => ret (Ok false)
    end.

(** ** Range runner (lines 237-305) *)

(** [out_file.exists()] *)
Definition file_exists (page : Z) : M bool :=
  fun w => (bool_decide (is_Some (files w !! page)), w).

(** How a run ends: it returns, or a [ValueError] leaves it, raised by
    [init_robots_parser], by [find_last_page_number], or by the page processor
    called on a page. *)
Inductive ending :=
| Completed
| RaisedInLoad
| RaisedInDetection
| RaisedInPage (page : Z).

(** What a run leaves behind besides the world: the calls of the page
    processor that returned, with their results, in order; the value of
    [consecutive_list_fails] when the page loop ended ([None] when the run
    returned before the loop or was left by an exception); and how the run
    ended. *)
Record run_report := mkReport {
  calls : list (Z * bool);
  final_fails : option Z;
  ended : ending
}.

(** What the page loop hands on: the counter, the calls so far, and how the
    loop ended. *)
Record loop_exit := mkExit {
  exit_fails : Z;
  exit_calls : list (Z * bool);
  exit_how : ending
}.

Section Runner.

(** The page processor the runner calls; [run_range] below is the runner
    with [process_one_page] in that place. *)
Variable processor : RobotFileParser -> string -> Z -> M (result bool).

Fixpoint page_loop (rp : RobotFileParser) (ua : string) (pages : list Z)
    (consecutive_list_fails : Z) (called : list (Z * bool)) : M loop_exit :=
  match pages with
  | [] => ret (mkExit consecutive_list_fails called Completed)
  | page :: rest =>
      present <- file_exists page ;;
      if present then page_loop rp ua rest consecutive_list_fails called
      else
        res <- processor rp ua page ;;
        match res with
        | Ok ok =>
            let called := called ++ [(page, ok)] in
            if negb ok then
              let consecutive_list_fails := consecutive_list_fails + 1 in
              if STOP_ON_CONSECUTIVE_LIST_FAILS <=? consecutive_list_fails
              then ret (mkExit consecutive_list_fails called Completed)   (* break *)
              else page_loop rp ua rest consecutive_list_fails called
            else page_loop rp ua rest 0 called
        | ValueError => ret (mkExit consecutive_list_fails called (RaisedInPage page))
        end
  end.

Definition finish (x : loop_exit) : run_report :=
  mkReport (exit_calls x)
           (match exit_how x with Completed => Some (exit_fails x) | _ => None end)
           (exit_how x).

Definition run_range_with (start_page : Z) (end_page : option Z) : M run_report :=
  let ua := user_agent env in
  loaded <- init_robots_parser (BASE_URL env) ;;
  match loaded with
  | ValueError => ret (mkReport [] None RaisedInLoad)
  | Ok rp =>
      if negb (can_fetch rp ua "/home/DrugSearch") then ret (mkReport [] None Completed)
      else if negb (can_fetch rp ua "/home/Result") then ret (mkReport [] None Completed)
      else
        let consecutive_list_fails := 0 in
        match end_page with
        | None =>
            let first_url := list_url start_page in
            resp <- polite_get first_url MAX_LIST_RETRIES ;;
            match resp with
            | Some r =>
                if failed_response resp then ret (mkReport [] None Completed)
                else
                  match find_last_page_number (text r) with
                  | Ok last =>
                      let end_page :=
                        match last with
                        | Some last => if last =? 0 then start_page else last
                        | None => start_page
                        end in
                      present <- file_exists start_page ;;
                      if present then
                        x <- page_loop rp ua (range (start_page + 1) (end_page + 1))
                               consecutive_list_fails [] ;;
                        ret (finish x)
                      else
                        res <- processor rp ua start_page ;;
                        match res with
                        | Ok ok =>
                            let consecutive_list_fails :=
                              if negb ok then consecutive_list_fails + 1 else 0 in
                            x <- page_loop rp ua (range (start_page + 1) (end_page + 1))
                                   consecutive_list_fails [(start_page, ok)] ;;
                            ret (finish x)
                        | ValueError =>
                            ret (mkReport [] None (RaisedInPage start_page))
                        end
                  | ValueError => ret (mkReport [] None RaisedInDetection)
                  end
            | None => ret (mkReport [] None Completed)
            end
        | Some end_page =>
            x <- page_loop rp ua (range start_page (end_page + 1)) consecutive_list_fails [] ;;
            ret (finish x)
        end
  end.

End Runner.

Definition run_range (start_page : Z) (end_page : option Z) : M run_report :=
  run_range_with process_one_page start_page end_page.

End Crawler.

(** * Vocabulary of the statements *)

(** The events of one attempt that is retried: the politeness delay, the
    request, and the backoff sleep of that attempt. *)
Definition attempt_events (url : string) (attempt : Z) : list event :=
  [Politeness; Get url; Backoff (backoff attempt)].

(** The events of a run of retried attempts. *)
Definition retried (url : string) (attempts : list Z) : list event :=
  attempts ≫= attempt_events url.

(** The requests of a trace, and its backoff sleeps. *)
Definition requests (tr : list event) : list string :=
  omap (fun e => match e with Get url => Some url | _ => None end) tr.

Definition backoffs (tr : list event) : list Q :=
  omap (fun e => match e with Backoff q => Some q | _ => None end) tr.

(** The outcomes [polite_get] retries. *)
Definition transient (o : outcome) : bool :=
  match o with
  | Reply r => retry_status (status_code r)
  | RequestError => true
  end.

(** The outcomes [polite_get] retries, spelled out: a network-level error,
    429, or any status from 500 upwards. *)
Definition retried_outcome (o : outcome) : Prop :=
  match o with
  | Reply r => status_code r = 429 ∨ 500 ≤ status_code r
  | RequestError => True
  end.

(** The outcomes the specification calls transient: a network-level error,
    429, or a 5xx status. *)
Definition spec_transient (o : outcome) : Prop :=
  match o with
  | Reply r => status_code r = 429 ∨ 500 ≤ status_code r ≤ 599
  | RequestError => True
  end.

(** "Any other status is returned immediately", read on the first attempt. *)
Definition other_status_returned (env : Env) (url : string) (retries : Z) (w : world) : Prop :=
  ∀ r, 1 ≤ retries →
       transport env (trace w ++ [Politeness]) url = Reply r →
       ¬ spec_transient (Reply r) →
       polite_get env url retries w = (Some r, emit [Politeness; Get url] w).

(** The address [init_robots_parser(BASE_URL)] reads, when [urljoin] gives
    one. *)
Definition robots_url (env : Env) : result string :=
  urljoin env (BASE_URL env) "/robots.txt".

(** The address [can_fetch] passes to the parser object: an argument that
    starts with "http" as it is, any other one joined to the base URL. *)
Definition absolute (env : Env) (path_or_url : string) : result string :=
  if String.prefix "http" path_or_url then Ok path_or_url
  else urljoin env (BASE_URL env) path_or_url.

(** The two ways the load of robots.txt fails with an exception: the fetch
    does (network failure), or the decoding of the body does. *)
Definition load_fails (o : robots_outcome) : Prop :=
  o = RobotsURLError ∨ o = RobotsUndecodable.

(** A fetch result that is absent or has a status other than 200. *)
Definition absent_or_not_200 (resp : option Response) : Prop :=
  match resp with
  | None => True
  | Some r => status_code r ≠ 200
  end.

(** Step 4 of the page processor in the words of the specification: the
    items are taken in order; an item whose detail path is denied is skipped
    without any effect; an allowed item is fetched with the detail budget and
    its content is stored under its record id when the fetch gives status 200
    and some content, and left out otherwise.  The relation links the mapping
    and world before the items with the mapping and world after them. *)
Inductive detail_run (env : Env) (rp : RobotFileParser) (ua : string) :
    list (string * string) → gmap string string → world →
    gmap string string → world → Prop :=
| detail_done m w :
    detail_run env rp ua [] m w m w
| detail_denied reg_no url rest m w m' w' :
    can_fetch env rp ua (urlparse_path env url) = false →
    detail_run env rp ua rest m w m' w' →
    detail_run env rp ua ((reg_no, url) :: rest) m w m' w'
| detail_stored reg_no url rest m w r w1 m' w' :
    can_fetch env rp ua (urlparse_path env url) = true →
    polite_get env url MAX_DETAIL_RETRIES w = (Some r, w1) →
    status_code r = 200 → text r ≠ "" →
    detail_run env rp ua rest (<[reg_no := text r]> m) w1 m' w' →
    detail_run env rp ua ((reg_no, url) :: rest) m w m' w'
| detail_omitted reg_no url rest m w resp w1 m' w' :
    can_fetch env rp ua (urlparse_path env url) = true →
    polite_get env url MAX_DETAIL_RETRIES w = (resp, w1) →
    (absent_or_not_200 resp ∨ ∃ r, resp = Some r ∧ text r = "") →
    detail_run env rp ua rest m w1 m' w' →
    detail_run env rp ua ((reg_no, url) :: rest) m w m' w'.

(** The requests [reqs] go through [urls] in order: some number of requests
    (possibly none) to the first address, then to the second, and so on. *)
Definition visited_in_order (urls reqs : list string) : Prop :=
  ∃ counts : list nat,
    length counts = length urls ∧ reqs = mjoin (zip_with replicate counts urls).

(** The same with a budget: at most [budget] requests to each address, and
    none to an address that is not [allowed]. *)
Definition visited_within (budget : nat) (allowed : string → bool)
    (urls reqs : list string) : Prop :=
  ∃ counts : list nat,
    Forall2 (fun n url => (n ≤ budget)%nat ∧ (allowed url = false → n = 0%nat)) counts urls
    ∧ reqs = mjoin (zip_with replicate counts urls).

(** Applying a function that can raise to the elements of a list, in order;
    the first [ValueError] is the result. *)
Fixpoint traverse {A B : Type} (f : A → result B) (l : list A) : result (list B) :=
  match l with
  | [] => Ok []
  | a :: l' =>
      match f a with
      | Ok b =>
          match traverse f l' with
          | Ok bs => Ok (b :: bs)
          | ValueError => ValueError
          end
      | ValueError => ValueError
      end
  end.

(** The children of a tag. *)
Definition children_of (n : node) : list node :=
  match n with
  | Tag _ _ _ children => children
  | _ => []
  end.

(** The child elements of a given name: the rows of a table body, the cells
    of a row. *)
Definition child_tags (name : string) (n : node) : list node :=
  List.filter (is_tag name) (children_of n).

(** One table row in the words of the specification: the row has at least
    five cells; the record id is the trimmed text of its first cell and is
    not empty; the detail link is an anchor with an [href] attribute in its
    last cell.  The result is the record id with the reference of the link. *)
Definition row_item (env : Env) (tr : node) : option (string * string) :=
  let cells := child_tags "td" tr in
  if decide (5 ≤ length cells)%nat then
    first_cell ← head cells;
    last_cell ← last cells;
    anchor ← head (find_all_with "a" "href" last_cell);
    href ← attr_get "href" anchor;
    let record_id := strip env (get_text_strip env first_cell) in
    if decide (record_id = "") then None else Some (record_id, href)
  else None.

(** The locator of an item, resolved against the base URL. *)
Definition resolve (env : Env) (item : string * string) : result (string * string) :=
  match urljoin env (BASE_URL env) (snd item) with
  | Ok url => Ok (fst item, url)
  | ValueError => ValueError
  end.

(** [extract_items] of the specification: the rows of the results table in
    order, each giving one item or none. *)
Definition extract_items (env : Env) (html : string) : result (list (string * string)) :=
  match select_one sel_results_tbody (BeautifulSoup env html) with
  | None => Ok []
  | Some tbody => traverse (resolve env) (omap (row_item env) (child_tags "tr" tbody))
  end.

(** What the code takes for a row and for its cells: a row is any [tr]
    element below the table body, and its cells are all the [td] elements
    below it, those of tables nested in it included. *)
Definition row_below (env : Env) (tr : node) : option (string * string) :=
  let cells := find_all "td" tr in
  if decide (5 ≤ length cells)%nat then
    first_cell ← head cells;
    last_cell ← last cells;
    anchor ← head (find_all_with "a" "href" last_cell);
    href ← attr_get "href" anchor;
    let record_id := strip env (get_text_strip env first_cell) in
    if decide (record_id = "") then None else Some (record_id, href)
  else None.

(** The candidates of a listing page: the rows below the results table body
    that give an item, with the reference of each still unresolved. *)
Definition candidates (env : Env) (tbody : node) : list (string * string) :=
  omap (row_below env) (find_all "tr" tbody).

(** [item] is the candidate [candidate] with its reference resolved. *)
Definition resolved (env : Env) (candidate item : string * string) : Prop :=
  fst item = fst candidate ∧ urljoin env (BASE_URL env) (snd candidate) = Ok (snd item).

(** The labels of [tags] that are numeric: the text of each tag, kept when
    [str.isdigit] holds of it. *)
Definition numeric_labels (env : Env) (tags : list node) : list string :=
  List.filter (isdigit env) (get_text_strip env <$> tags).

(** The numeric labels of the pagination control in the words of the
    specification: every numeric anchor label, and the number of the current
    page where it is rendered as text that is not a link (a [span]). *)
Definition advertised_labels (env : Env) (ul : node) : list string :=
  numeric_labels env (find_all "a" ul) ++ numeric_labels env (find_all "span" ul).

(** [detect_upper_bound] of the specification. *)
Definition detect_upper_bound (env : Env) (html : string) : result (option Z) :=
  match select_one sel_ul_pagination (BeautifulSoup env html) with
  | None => Ok None
  | Some ul =>
      match traverse (int env) (advertised_labels env ul) with
      | Ok nums => Ok (max_or_none nums)
      | ValueError => ValueError
      end
  end.

(** The same labels, of the anchors that carry an [href] only. *)
Definition linked_labels (env : Env) (ul : node) : list string :=
  numeric_labels env (find_all_with "a" "href" ul) ++ numeric_labels env (find_all "span" ul).

(** [nums] are the values [int] gives for [labels], none of them raising. *)
Definition read_as (env : Env) (labels : list string) (nums : list Z) : Prop :=
  Forall2 (fun label n => int env label = Ok n) labels nums.

(** The failure counter after a sequence of processor results, starting from
    [c]: a failure adds one, a success resets to 0. *)
Definition count_fails (c : Z) (results : list bool) : Z :=
  foldl (fun c (ok : bool) => if ok then 0 else c + 1) c results.

(** The page loop in the words of the specification, as a relation between
    the pages still to go, the counter and the world before them, and the
    calls made, the counter, the ending and the world after them.  Every
    call is a call of the processor in the world the calls before it left: a
    saved page is passed over; a call that returns true resets the counter;
    a call that returns false adds one to it, and ends the loop when that
    reaches the threshold; a call that raises ends the loop with its
    exception. *)
Inductive page_steps (processor : RobotFileParser → string → Z → M (result bool))
    (rp : RobotFileParser) (ua : string) :
    list Z → Z → world → list (Z * bool) → Z → ending → world → Prop :=
| steps_done c w :
    page_steps processor rp ua [] c w [] c Completed w
| steps_saved page rest c w made c' e w' :
    is_Some (files w !! page) →
    page_steps processor rp ua rest c w made c' e w' →
    page_steps processor rp ua (page :: rest) c w made c' e w'
| steps_success page rest c w w1 made c' e w' :
    files w !! page = None →
    processor rp ua page w = (Ok true, w1) →
    page_steps processor rp ua rest 0 w1 made c' e w' →
    page_steps processor rp ua (page :: rest) c w ((page, true) :: made) c' e w'
| steps_failure page rest c w w1 made c' e w' :
    files w !! page = None →
    processor rp ua page w = (Ok false, w1) →
    c + 1 < STOP_ON_CONSECUTIVE_LIST_FAILS →
    page_steps processor rp ua rest (c + 1) w1 made c' e w' →
    page_steps processor rp ua (page :: rest) c w ((page, false) :: made) c' e w'
| steps_stop page rest c w w1 :
    files w !! page = None →
    processor rp ua page w = (Ok false, w1) →
    STOP_ON_CONSECUTIVE_LIST_FAILS ≤ c + 1 →
    page_steps processor rp ua (page :: rest) c w [(page, false)] (c + 1) Completed w1
| steps_raised page rest c w w1 :
    files w !! page = None →
    processor rp ua page w = (ValueError, w1) →
    page_steps processor rp ua (page :: rest) c w [] c (RaisedInPage page) w1.

(** A page processor that touches no other output file than the one of its
    own page. *)
Definition processor_frame
    (processor : RobotFileParser → string → Z → M (result bool)) : Prop :=
  ∀ rp ua page w q,
    q ≠ page → files (snd (processor rp ua page w)) !! q = files w !! q.


(** Page indices in strictly increasing order. *)
Definition increasing (pages : list Z) : Prop := StronglySorted Z.lt pages.

(** "No network activity for page [N]" during a run: the listing address of
    the page is never requested. *)
Definition not_requested (env : Env) (start_page : Z) (end_page : option Z)
    (w : world) (N : Z) : Prop :=
  Get (list_url env N) ∉ trace (snd (run_range env start_page end_page w)).

(** * Test doubles *)

(** ** Text methods, for pages in ASCII

    Stand-ins for [str.strip], [str.isdigit] and [int] that agree with
    Python on ASCII text. *)

(** TAB, LF, VT, FF, CR, FS, GS, RS, US and the space. *)
Definition ascii_isspace (c : ascii) : bool :=
  let n := nat_of_ascii c in
  ((9 <=? n) && (n <=? 13) || (28 <=? n) && (n <=? 32))%nat.

Definition ascii_strip (s : string) : string :=
  rstrip_with ascii_isspace (lstrip_with ascii_isspace s).

Definition is_digit_char (c : ascii) : bool :=
  let n := nat_of_ascii c in ((48 <=? n) && (n <=? 57))%nat.

Fixpoint all_chars (p : ascii -> bool) (s : string) : bool :=
  match s with
  | EmptyString => true
  | String c s' => p c && all_chars p s'
  end.

(** At least one character, and the digits 0 to 9 only. *)
Definition ascii_isdigit (s : string) : bool :=
  match s with
  | EmptyString => false
  | _ => all_chars is_digit_char s
  end.

Fixpoint int_digits (acc : Z) (s : string) : Z :=
  match s with
  | EmptyString => acc
  | String c s' => int_digits (10 * acc + (Z.of_nat (nat_of_ascii c) - 48)) s'
  end.

(** The number a string of the digits 0 to 9 writes. *)
Definition digits_value (s : string) : Z := int_digits 0 s.

(** [str.isdigit] on a label: the digits 0 to 9 and, as in Python, the
    superscript two. *)
Definition stub_isdigit (s : string) : bool :=
  ascii_isdigit s || String.eqb s "²".

(** [int]: the digits 0 to 9 are read, anything else raises, the
    superscript two included. *)
Definition stub_int (s : string) : result Z :=
  if ascii_isdigit s then Ok (digits_value s) else ValueError.

(** [urljoin] for a host and a path, as plain concatenation; it raises on a
    reference that opens a bracketed host and does not close it. *)
Definition stub_urljoin (base url : string) : result string :=
  if String.prefix "//[" url then ValueError else Ok (base +:+ url).

Definition empty_world : world := mkWorld ∅ [].

Definition no_document : node := Tag "[document]" [] [] [].

(** An environment around a transport stub; the other library calls are the
    simplest ones that type. *)
Definition stub_env (net : list event -> string -> outcome)
    (robots : robots_outcome) (soup : string -> node) : Env :=
  mkEnv "https://example.com" stub_urljoin (fun url => url) soup
        ascii_strip stub_isdigit stub_int
        net (fun _ _ => robots) 1%positive (fun _ _ _ => Some true) "test-agent".

(** A transport that answers with the statuses of a script, one per request,
    and with [final] once the script is used up. *)
Definition scripted (script : list Z) (final : Z) : list event -> string -> outcome :=
  fun tr _ =>
    Reply (mkResponse (default final (script !! length (requests tr))) "").

(** A site that answers by address, and [missing] for unknown addresses. *)
Definition site (pages : list (string * Response)) (missing : Z)
    : list event -> string -> outcome :=
  fun _ url =>
    match List.find (fun p => String.eqb (fst p) url) pages with
    | Some p => Reply (snd p)
    | None => Reply (mkResponse missing "")
    end.

Definition cell (children : list node) : node := Tag "td" [] [] children.

Definition view_cell (href : string) : node :=
  cell [Tag "a" [] [("href", href)] [Text "View"]].

(** A table row of five cells: the registration number, three more cells,
    and the link to the detail page. *)
Definition listing_row (reg_no href : string) : node :=
  Tag "tr" [] [] [cell [Text reg_no]; cell []; cell []; cell []; view_cell href].

Definition listing_document (rows : list node) : node :=
  Tag "[document]" [] []
    [Tag "html" [] []
       [Tag "body" [] []
          [Tag "div" ["table-responsive"] []
             [Tag "table" ["table"; "s-row"] [] [Tag "tbody" [] [] rows]]]]].

(** A parser object that has read an empty robots.txt. *)
Definition permissive_rp : RobotFileParser :=
  mkRobotFileParser "https://example.com/robots.txt" false false 1 [].

Definition two_rows : list node :=
  [listing_row "REG-1" "/home/Result?drugId=1";
   listing_row "REG-2" "/home/Result?drugId=2"].

(** One listing page of two items; the first detail page exists, the second
    one answers 500 every time. *)
Definition two_item_env : Env :=
  stub_env
    (site [("https://example.com/home/DrugSearch?page=1", mkResponse 200 "<table>");
           ("https://example.com/home/Result?drugId=1", mkResponse 200 "<html>one</html>")]
          500)
    (RobotsLines []) (fun _ => listing_document two_rows).

(** The same site with a listing whose second row links to ["//["], a
    reference [urljoin] raises on. *)
Definition broken_link_env : Env :=
  stub_env
    (site [("https://example.com/home/DrugSearch?page=1", mkResponse 200 "<table>");
           ("https://example.com/home/Result?drugId=1", mkResponse 200 "<html>one</html>")]
          500)
    (RobotsLines [])
    (fun _ => listing_document [listing_row "REG-1" "/home/Result?drugId=1";
                                listing_row "REG-2" "//["]).

(** A row with four cells of its own, the last of which holds a table with
    one more cell and the link. *)
Definition nested_row : node :=
  Tag "tr" [] []
    [cell [Text "REG-1"]; cell []; cell [];
     cell [Tag "table" [] []
             [Tag "tr" [] [] [view_cell "/home/Result?drugId=1"]]]].

Definition nested_table_env : Env :=
  stub_env (scripted [] 200) (RobotsLines []) (fun _ => listing_document [nested_row]).

Definition page_link (label : string) : node :=
  Tag "li" [] [] [Tag "a" [] [("href", "?page=" +:+ label)] [Text label]].

Definition page_text (label : string) : node :=
  Tag "li" [] [] [Tag "span" [] [] [Text label]].

Definition pagination_document (items : list node) : node :=
  Tag "[document]" [] []
    [Tag "html" [] [] [Tag "body" [] [] [Tag "ul" ["pagination"] [] items]]].

(** Links 1 and 8 around an ellipsis, and the current page 9 as text. *)
Definition ellipsis_env : Env :=
  stub_env (scripted [] 200) (RobotsLines [])
    (fun _ => pagination_document
                [page_link "1"; page_text "..."; page_link "8"; page_text "9"]).

(** Links 1, 2 and 3, and the current page 2 as text. *)
Definition three_pages_env : Env :=
  stub_env (scripted [] 200) (RobotsLines [])
    (fun _ => pagination_document
                [page_link "1"; page_text "2"; page_link "2"; page_link "3"]).

(** A link 1 and a link labelled with a superscript two: the page answers
    200 and holds no listing. *)
Definition superscript_env : Env :=
  stub_env (scripted [] 200) (RobotsLines [])
    (fun _ => pagination_document [page_link "1"; page_link "²"]).

(** A stub that fails without doing anything. *)
Definition failing_processor : RobotFileParser → string → Z → M (result bool) :=
  fun _ _ _ w => (Ok false, w).

(** An output directory that already holds page 1, with no record in it. *)
Definition page_1_saved : world := mkWorld {[ 1 := ∅ ]} [].

(** A link 1, and a 9 in an anchor without [href]. *)
Definition bare_anchor_env : Env :=
  stub_env (scripted [] 200) (RobotsLines [])
    (fun _ => pagination_document
                [page_link "1"; Tag "li" [] [] [Tag "a" [] [] [Text "9"]]]).

(** * Vocabulary of the further properties *)

(** Every [session.get] of the events [es] comes right after a politeness
    delay; [after_delay] tells whether the event before [es] was one. *)
Fixpoint paced_from (after_delay : bool) (es : list event) : bool :=
  match es with
  | [] => true
  | Politeness :: es' => paced_from true es'
  | Get _ :: es' => after_delay && paced_from false es'
  | _ :: es' => paced_from false es'
  end.

Definition paced (es : list event) : bool := paced_from false es.

(** The loads of robots.txt among the events. *)
Definition robots_loads (es : list event) : list string :=
  omap (fun e => match e with UrlOpen url => Some url | _ => None end) es.

(** Events of the session: every request after a politeness delay, and no
    load of robots.txt among them. *)
Definition well_paced (es : list event) : Prop :=
  paced es = true ∧ robots_loads es = [].

(** The seconds of backoff sleep in a list of events. *)
Definition total_backoff (es : list event) : Q :=
  foldr Qplus 0%Q (backoffs es).

(** robots.txt is answered with 403. *)
Definition forbidden_robots_env : Env :=
  stub_env (scripted [] 200) (RobotsHTTPError 403) (fun _ => listing_document two_rows).

(** The items of the listing that [process_one_page] fetches for a page in
    the world [w] (none when the fetch gives no response or the parser
    raises). *)
Definition listed_items (env : Env) (page_index : Z) (w : world)
    : list (string * string) :=
  match fst (polite_get env (list_url env page_index) MAX_LIST_RETRIES w) with
  | Some r =>
      match parse_listing_for_items env (text r) with
      | Ok items => items
      | ValueError => []
      end
  | None => []
  end.

(** The last page a run without an end page works up to, from what
    [find_last_page_number] returned: the detected number, or the start page
    when none (or 0) is detected. *)
Definition detected_end (start_page : Z) (last : option Z) : Z :=
  match last with
  | Some last => if last =? 0 then start_page else last
  | None => start_page
  end.

(** A page processor that has saved the file of its page whenever it returns
    [true]. *)
Definition processor_saves
    (processor : RobotFileParser → string → Z → M (result bool)) : Prop :=
  ∀ rp ua page w,
    fst (processor rp ua page w) = Ok true →
    is_Some (files (snd (processor rp ua page w)) !! page).

(** [k] zeros. *)
Fixpoint zeros (k : nat) : string :=
  match k with
  | O => ""
  | S k' => String "0" (zeros k')
  end.

(** [f"{n:03d}"]: the decimal digits of [n], filled with zeros to three
    characters, the sign of a negative number first and counted in. *)
Definition format_03d (n : Z) : string :=
  let digits := pretty (Z.abs n) in
  if n <? 0 then "-" +:+ zeros (2 - String.length digits) +:+ digits
  else zeros (3 - String.length digits) +:+ digits.

(** The name of the output file of a page (lines 184, 275 and 291):
    [f"page_{page_index:03d}.json"] in the output directory. *)
Definition page_file_name (page_index : Z) : string :=
  "page_" +:+ format_03d page_index +:+ ".json".

(** * Properties *)

(** ** The world and the monad *)

Lemma emit_emit es1 es2 w : emit es2 (emit es1 w) = emit (es1 ++ es2) w.
Proof. unfold emit; simpl. by rewrite <- app_assoc. Qed.

Lemma emit_nil w : emit [] w = w.
Proof. destruct w; unfold emit; simpl. by rewrite app_nil_r. Qed.

Lemma trace_emit es w : trace (emit es w) = trace w ++ es.
Proof. done. Qed.

Lemma files_emit es w : files (emit es w) = files w.
Proof. done. Qed.

Lemma range_retries retries : range 1 (retries + 1) = seqZ 1 retries.
Proof. unfold range. f_equal. lia. Qed.

Lemma retried_cons url a attempts :
  retried url (a :: attempts) = attempt_events url a ++ retried url attempts.
Proof. done. Qed.

Lemma retried_app url l1 l2 :
  retried url (l1 ++ l2) = retried url l1 ++ retried url l2.
Proof. unfold retried. apply bind_app. Qed.

Lemma requests_retried url attempts :
  requests (retried url attempts) = replicate (length attempts) url.
Proof. induction attempts as [|a l IH]; [done|]. rewrite retried_cons. simpl. by f_equal. Qed.

Lemma backoffs_retried url attempts :
  backoffs (retried url attempts) = backoff <$> attempts.
Proof. induction attempts as [|a l IH]; [done|]. rewrite retried_cons. simpl. by f_equal. Qed.

Lemma spec_transient_transient o : spec_transient o → transient o = true.
Proof.
  destruct o as [r|]; simpl; [|done]. unfold retry_status.
  intros [->| [H1 H2]]; [done|].
  apply orb_true_iff; right. by apply Z.leb_le.
Qed.

Lemma retried_outcome_transient o : retried_outcome o ↔ transient o = true.
Proof.
  destruct o as [r|]; simpl; [|done]. unfold retry_status.
  rewrite orb_true_iff, Z.eqb_eq, Z.leb_le. done.
Qed.

Lemma retry_status_false s : retry_status s = false ↔ s ≠ 429 ∧ s < 500.
Proof.
  unfold retry_status. rewrite orb_false_iff, Z.eqb_neq, Z.leb_gt. done.
Qed.

(** * Transport *)

Section Transport.

Context (env : Env) (url : string).

Lemma trace_after_attempt a pre rest w :
  trace (emit (attempt_events url a) w) ++ retried url pre ++ rest
  = trace w ++ retried url (a :: pre) ++ rest.
Proof. rewrite trace_emit, retried_cons, <- !app_assoc. done. Qed.

(** One attempt with a transient outcome: the loop goes on with the
    remaining attempts after the three events of that attempt. *)
Lemma polite_get_loop_retry a rest w :
  transient (transport env (trace w ++ [Politeness]) url) = true →
  polite_get_loop env url (a :: rest) w
  = polite_get_loop env url rest (emit (attempt_events url a) w).
Proof.
  intros Ht. simpl. unfold bind, sleep_politeness, session_get, sleep; simpl.
  destruct (transport env (trace w ++ [Politeness]) url) as [r|] eqn:E; simpl in Ht.
  - rewrite Ht. unfold bind. by rewrite !emit_emit.
  - by rewrite !emit_emit.
Qed.

(** One attempt with any other outcome: the response is returned at once. *)
Lemma polite_get_loop_return a rest w r :
  transport env (trace w ++ [Politeness]) url = Reply r →
  retry_status (status_code r) = false →
  polite_get_loop env url (a :: rest) w = (Some r, emit [Politeness; Get url] w).
Proof.
  intros E Hs. simpl. unfold bind, sleep_politeness, session_get; simpl.
  rewrite E, Hs. unfold ret. by rewrite emit_emit.
Qed.

Lemma polite_get_loop_all_retried attempts : ∀ w,
  (∀ pre a post, attempts = pre ++ a :: post →
     transient (transport env (trace w ++ retried url pre ++ [Politeness]) url) = true) →
  polite_get_loop env url attempts w = (None, emit (retried url attempts) w).
Proof.
  induction attempts as [|a rest IH]; intros w H.
  - simpl. unfold ret. by rewrite emit_nil.
  - rewrite polite_get_loop_retry by (apply (H [] a rest); done).
    rewrite IH.
    + by rewrite emit_emit.
    + intros pre b post ->. rewrite trace_after_attempt.
      by apply (H (a :: pre) b post).
Qed.

Lemma polite_get_loop_first_return pre : ∀ a post w r,
  (∀ pre1 b post1, pre = pre1 ++ b :: post1 →
     transient (transport env (trace w ++ retried url pre1 ++ [Politeness]) url) = true) →
  transport env (trace w ++ retried url pre ++ [Politeness]) url = Reply r →
  retry_status (status_code r) = false →
  polite_get_loop env url (pre ++ a :: post) w
  = (Some r, emit (retried url pre ++ [Politeness; Get url]) w).
Proof.
  induction pre as [|p pre IH]; intros a post w r H E Hs.
  - simpl in E. by apply polite_get_loop_return.
  - rewrite <- app_comm_cons.
    rewrite polite_get_loop_retry by (apply (H [] p pre); done).
    rewrite (IH a post _ r); [by rewrite emit_emit, retried_cons, <- app_assoc| |by rewrite trace_after_attempt|done].
    intros pre1 b post1 ->. rewrite trace_after_attempt.
    by apply (H (p :: pre1) b post1).
Qed.

End Transport.

Lemma seqZ_split m n pre a post :
  seqZ m n = pre ++ a :: post →
  pre = seqZ m (Z.of_nat (length pre)) ∧ a = m + Z.of_nat (length pre)
  ∧ Z.of_nat (length pre) < n.
Proof.
  revert m n. induction pre as [|p pre IH]; intros m n E.
  - destruct (decide (0 < n)) as [Hn|Hn].
    + rewrite seqZ_cons in E by done. simpl in *. split; [done|]. split; [|done].
      injection E as <- _. lia.
    + rewrite seqZ_nil in E by lia. done.
  - destruct (decide (0 < n)) as [Hn|Hn].
    + rewrite seqZ_cons in E by done. simpl in E. injection E as <- E.
      destruct (IH _ _ E) as (Hpre & Ha & Hlt).
      replace (Z.of_nat (length (m :: pre))) with (Z.succ (Z.of_nat (length pre)))
        by (simpl; lia).
      split; [|lia].
      rewrite seqZ_cons by lia. rewrite Z.pred_succ. by f_equal.
    + rewrite seqZ_nil in E by lia. done.
Qed.

Lemma range_split k hi :
  1 ≤ k < hi → range 1 hi = range 1 k ++ k :: range (k + 1) hi.
Proof.
  intros Hk. unfold range.
  replace (hi - 1) with ((k - 1) + (hi - k)) by lia.
  rewrite seqZ_app by lia.
  f_equal. rewrite (seqZ_cons (1 + (k - 1))) by lia.
  f_equal; [lia|]. f_equal; lia.
Qed.

Lemma range_prefix_of_split hi pre a post :
  range 1 hi = pre ++ a :: post → pre = range 1 a ∧ 1 ≤ a < hi.
Proof.
  unfold range. intros E. destruct (seqZ_split _ _ _ _ _ E) as (Hpre & Ha & Hlt).
  split; [|lia]. rewrite Hpre at 1. f_equal. lia.
Qed.

(** * Retry, backoff and exhaustion *)

(** C4 (amended): attempts 1..k-1 end in 429, in a status of 500 or more, or
    in a network error, and attempt k (within the budget) ends in any other
    status, that is one below 500 other than 429:
    every attempt i before k is followed by a sleep of [backoff_base * i]
    seconds and by the next attempt, and the response of attempt k is returned
    right after its request, with no further event. *)
Theorem polite_get_backoff_then_return (env : Env) (url : string) (retries k : Z)
    (w : world) (r : Response) :
  1 ≤ k ≤ retries →
  (∀ i, 1 ≤ i < k →
     retried_outcome (transport env (trace w ++ retried url (range 1 i) ++ [Politeness]) url)) →
  transport env (trace w ++ retried url (range 1 k) ++ [Politeness]) url = Reply r →
  status_code r ≠ 429 ∧ status_code r < 500 →
  polite_get env url retries w
  = (Some r, emit (retried url (range 1 k) ++ [Politeness; Get url]) w)
  ∧ backoffs (retried url (range 1 k) ++ [Politeness; Get url])
    = (fun i => (backoff_base * inject_Z i)%Q) <$> range 1 k.
Proof.
  intros Hk Hpre Hr Hs. split.
  - unfold polite_get. rewrite (range_split k) by lia.
    apply polite_get_loop_first_return; [|done|by apply retry_status_false].
    intros pre1 b post1 E.
    destruct (range_prefix_of_split _ _ _ _ E) as [-> Hb].
    by apply retried_outcome_transient, Hpre.
  - unfold backoffs. rewrite omap_app. fold (backoffs (retried url (range 1 k))).
    rewrite backoffs_retried. simpl. by rewrite app_nil_r.
Qed.

(** C5: when every attempt of the budget ends in a network error, in 429 or
    in a 5xx status, [polite_get] returns [None] after one request per attempt,
    [retries] requests in all. *)
Theorem polite_get_exhaustion (env : Env) (url : string) (retries : Z) (w : world) :
  (∀ i, 1 ≤ i ≤ retries →
     spec_transient (transport env (trace w ++ retried url (range 1 i) ++ [Politeness]) url)) →
  polite_get env url retries w = (None, emit (retried url (range 1 (retries + 1))) w)
  ∧ requests (retried url (range 1 (retries + 1))) = replicate (Z.to_nat retries) url.
Proof.
  intros H. split.
  - unfold polite_get. apply polite_get_loop_all_retried.
    intros pre a post E.
    destruct (range_prefix_of_split _ _ _ _ E) as [-> Ha].
    apply spec_transient_transient, H. lia.
  - rewrite requests_retried. f_equal. unfold range. rewrite length_seqZ. lia.
Qed.

(** The transport answers 503, 503 and then 200: the 200 response comes back
    after two backoff sleeps, of [backoff_base * 1] and [backoff_base * 2]
    seconds. *)
Lemma polite_get_backoff_then_return_witness :
  let env := stub_env (scripted [503; 503] 200) RobotsURLError (fun _ => no_document) in
  let u := "https://example.com/x" in
  (1 ≤ 3 ≤ 3)
  ∧ polite_get env u 3 empty_world
    = (Some (mkResponse 200 ""),
       mkWorld ∅ [Politeness; Get u; Backoff (backoff_base * inject_Z 1)%Q;
                  Politeness; Get u; Backoff (backoff_base * inject_Z 2)%Q;
                  Politeness; Get u])
  ∧ backoffs (trace (snd (polite_get env u 3 empty_world)))
    = [(backoff_base * inject_Z 1)%Q; (backoff_base * inject_Z 2)%Q].
Proof.
  intros env u.
  assert (Hk : 1 ≤ 3 ≤ 3) by lia.
  assert (Hpre : ∀ i, 1 ≤ i < 3 →
     retried_outcome
       (transport env (trace empty_world ++ retried u (range 1 i) ++ [Politeness]) u)).
  { intros i Hi. assert (i = 1 ∨ i = 2) as [-> | ->] by lia; simpl; lia. }
  assert (Hr : transport env (trace empty_world ++ retried u (range 1 3) ++ [Politeness]) u
               = Reply (mkResponse 200 "")) by reflexivity.
  assert (Hs : status_code (mkResponse 200 "") ≠ 429 ∧ status_code (mkResponse 200 "") < 500)
    by (simpl; lia).
  destruct (polite_get_backoff_then_return env u 3 3 empty_world _ Hk Hpre Hr Hs)
    as [Hget Hsleeps].
  split; [exact Hk|]. split; [exact Hget|].
  rewrite Hget. exact Hsleeps.
Defined.

(** C4 as stated fails on a status above 599: 600 is neither 429 nor 5xx, and
    yet the first attempt is retried and the run returns the later 200. *)
Lemma other_status_returned_fails :
  let env := stub_env (scripted [600] 200) RobotsURLError (fun _ => no_document) in
  let u := "https://example.com/x" in
  polite_get env u 3 empty_world
  = (Some (mkResponse 200 ""),
     mkWorld ∅ [Politeness; Get u; Backoff (backoff_base * inject_Z 1)%Q;
                Politeness; Get u])
  ∧ ¬ other_status_returned env u 3 empty_world.
Proof.
  intros env u. split; [reflexivity|].
  intros H. specialize (H (mkResponse 600 "")).
  assert (E : polite_get env u 3 empty_world
              = (Some (mkResponse 600 ""), emit [Politeness; Get u] empty_world)).
  { apply H; [lia|reflexivity|]. simpl. lia. }
  discriminate E.
Qed.

(** A transport that always answers 500, and a budget of three attempts. *)
Lemma polite_get_exhaustion_witness :
  let env := stub_env (scripted [] 500) RobotsURLError (fun _ => no_document) in
  let u := "https://example.com/x" in
  (∀ i, 1 ≤ i ≤ 3 →
     spec_transient (transport env (trace empty_world ++ retried u (range 1 i) ++ [Politeness]) u))
  ∧ polite_get env u 3 empty_world
    = (None, mkWorld ∅ [Politeness; Get u; Backoff (backoff_base * inject_Z 1)%Q;
                        Politeness; Get u; Backoff (backoff_base * inject_Z 2)%Q;
                        Politeness; Get u; Backoff (backoff_base * inject_Z 3)%Q])
  ∧ requests (retried u (range 1 (3 + 1))) = [u; u; u].
Proof.
  intros env u.
  assert (H : ∀ i, 1 ≤ i ≤ 3 →
     spec_transient (transport env (trace empty_world ++ retried u (range 1 i) ++ [Politeness]) u)).
  { intros i Hi. simpl. right. lia. }
  split; [exact H|].
  exact (polite_get_exhaustion env u 3 empty_world H).
Defined.

(** [polite_get] only adds events to the world. *)
Lemma polite_get_loop_emits env url attempts : ∀ w,
  ∃ es, snd (polite_get_loop env url attempts w) = emit es w.
Proof.
  induction attempts as [|a rest IH]; intros w.
  - exists []. simpl. by rewrite emit_nil.
  - destruct (transient (transport env (trace w ++ [Politeness]) url)) eqn:Ht.
    + rewrite polite_get_loop_retry by done.
      destruct (IH (emit (attempt_events url a) w)) as [es ->].
      eexists. by rewrite emit_emit.
    + destruct (transport env (trace w ++ [Politeness]) url) as [r|] eqn:E; [|done].
      rewrite (polite_get_loop_return env url a rest w r E Ht). by eexists.
Qed.

Lemma polite_get_emits env url retries w :
  ∃ es, snd (polite_get env url retries w) = emit es w.
Proof. apply polite_get_loop_emits. Qed.

Lemma polite_get_files env url retries w :
  files (snd (polite_get env url retries w)) = files w.
Proof. by destruct (polite_get_emits env url retries w) as [es ->]. Qed.

(** * Policy gate *)

Section Policy.

Context (env : Env).

(** The load raises at once when [urljoin] does, and reads the address
    [urljoin] gave otherwise. *)
Lemma init_robots_parser_cases base_url w :
  match urljoin env base_url "/robots.txt" with
  | Ok robots =>
      ∃ rp, init_robots_parser env base_url w = (Ok rp, emit [UrlOpen robots] w)
  | ValueError => init_robots_parser env base_url w = (ValueError, w)
  end.
Proof.
  unfold init_robots_parser.
  destruct (urljoin env base_url "/robots.txt") as [robots|]; [|done].
  unfold bind, rp_read, ret. simpl.
  destruct (robots_fetch env (trace w) robots) as [|code| |lines]; try by eexists.
  destruct ((code =? 401) || (code =? 403)); [by eexists|].
  destruct ((400 <=? code) && (code <? 500)); by eexists.
Qed.

Lemma init_robots_parser_returns base_url w rp w0 :
  init_robots_parser env base_url w = (Ok rp, w0) →
  ∃ robots, urljoin env base_url "/robots.txt" = Ok robots ∧ w0 = emit [UrlOpen robots] w.
Proof.
  intros H. pose proof (init_robots_parser_cases base_url w) as Hc.
  destruct (urljoin env base_url "/robots.txt") as [robots|].
  - destruct Hc as [rp' Hc]. rewrite Hc in H. injection H as _ <-. by exists robots.
  - rewrite Hc in H. done.
Qed.

Lemma init_robots_parser_files base_url w :
  files (snd (init_robots_parser env base_url w)) = files w.
Proof.
  pose proof (init_robots_parser_cases base_url w) as Hc.
  destruct (urljoin env base_url "/robots.txt") as [robots|].
  - destruct Hc as [rp ->]. done.
  - by rewrite Hc.
Qed.

Lemma init_robots_parser_load_fails base_url w robots :
  urljoin env base_url "/robots.txt" = Ok robots →
  load_fails (robots_fetch env (trace w) robots) →
  init_robots_parser env base_url w
  = (Ok (mkRobotFileParser robots false false 0 []), emit [UrlOpen robots] w).
Proof.
  intros Hjoin Hfail. unfold init_robots_parser. rewrite Hjoin.
  unfold bind, rp_read, ret. simpl.
  by destruct Hfail as [-> | ->].
Qed.

End Policy.

(** C1 fails on the code.  When the load of robots.txt raises, the parser
    object that [init_robots_parser] returns has never been marked as read
    ([last_checked] is still 0), and [RobotFileParser.can_fetch] answers
    [False] for such an object without raising; so [can_fetch] denies every
    agent on every absolute URL and on every path that [urljoin] can join to
    the base URL (its answer is [True] only where [urljoin] itself raises),
    and the run stops at the first of its two policy checks whose path
    [urljoin] can join, before any page is requested. *)
Theorem robots_load_failure_denies_all (env : Env) (w : world) (robots : string) :
  robots_url env = Ok robots →
  load_fails (robots_fetch env (trace w) robots) →
  ∃ rp,
    init_robots_parser env (BASE_URL env) w = (Ok rp, emit [UrlOpen robots] w)
    ∧ (∀ ua path_or_url,
         can_fetch env rp ua path_or_url
         = match absolute env path_or_url with
           | Ok _ => false
           | ValueError => true
           end)
    ∧ (∀ processor start_page end_page,
         urljoin env (BASE_URL env) "/home/DrugSearch" ≠ ValueError
         ∨ urljoin env (BASE_URL env) "/home/Result" ≠ ValueError →
         run_range_with env processor start_page end_page w
         = (mkReport [] None Completed, emit [UrlOpen robots] w)).
Proof.
  intros Hjoin Hfail.
  pose proof (init_robots_parser_load_fails env (BASE_URL env) w robots Hjoin Hfail) as Hinit.
  eexists. split; [exact Hinit|].
  assert (Hdeny : ∀ ua path_or_url,
    can_fetch env (mkRobotFileParser robots false false 0 []) ua path_or_url
    = match absolute env path_or_url with
      | Ok _ => false
      | ValueError => true
      end).
  { intros ua p. unfold can_fetch, absolute, rp_can_fetch. simpl.
    by destruct (if String.prefix "http" p then _ else _). }
  split; [exact Hdeny|].
  intros processor start_page end_page Hpaths.
  unfold run_range_with, bind. rewrite Hinit.
  rewrite !Hdeny. unfold absolute. simpl.
  destruct (urljoin env (BASE_URL env) "/home/DrugSearch"); [done|].
  destruct (urljoin env (BASE_URL env) "/home/Result"); [done|].
  by destruct Hpaths.
Qed.

(** The host of robots.txt is unreachable: the listing path is denied and a
    run over pages 1 to 10 ends after the failed load, with no page request. *)
Lemma robots_load_failure_denies_all_witness :
  let env := stub_env (scripted [] 200) RobotsURLError (fun _ => no_document) in
  let robots := "https://example.com/robots.txt" in
  robots_url env = Ok robots
  ∧ load_fails (robots_fetch env (trace empty_world) robots)
  ∧ (∃ rp,
       init_robots_parser env (BASE_URL env) empty_world
       = (Ok rp, mkWorld ∅ [UrlOpen robots])
       ∧ can_fetch env rp "test-agent" "/home/DrugSearch" = false
       ∧ can_fetch env rp "test-agent" "https://example.com/home/Result?drugId=1" = false
       ∧ run_range env 1 (Some 10) empty_world
         = (mkReport [] None Completed, mkWorld ∅ [UrlOpen robots])).
Proof.
  intros env robots.
  assert (Hjoin : robots_url env = Ok robots) by reflexivity.
  assert (H : load_fails (robots_fetch env (trace empty_world) robots))
    by (left; reflexivity).
  destruct (robots_load_failure_denies_all env empty_world robots Hjoin H)
    as (rp & Hinit & Hdeny & Hrun).
  split; [exact Hjoin|]. split; [exact H|].
  exists rp. split; [exact Hinit|].
  split; [exact (Hdeny "test-agent" "/home/DrugSearch")|].
  split; [exact (Hdeny "test-agent" "https://example.com/home/Result?drugId=1")|].
  apply (Hrun (process_one_page env) 1 (Some 10)). left. discriminate.
Defined.

(** * Responses *)

Lemma failed_response_iff resp : failed_response resp = true ↔ absent_or_not_200 resp.
Proof.
  destruct resp as [r|]; simpl; [|done].
  unfold Response_bool. rewrite orb_true_iff, !negb_true_iff, negb_false_iff.
  rewrite andb_true_iff, Z.eqb_neq, Z.leb_le, Z.ltb_lt. lia.
Qed.

Lemma failed_response_false r :
  failed_response (Some r) = false → status_code r = 200.
Proof.
  intros H. destruct (decide (status_code r = 200)) as [|Hne]; [done|].
  apply (failed_response_iff (Some r)) in Hne. congruence.
Qed.

(** * Further properties of the transport *)

Lemma polite_get_loop_cases env url attempts : ∀ w,
  polite_get_loop env url attempts w = (None, emit (retried url attempts) w)
  ∨ ∃ pre a post r,
      attempts = pre ++ a :: post
      ∧ polite_get_loop env url attempts w
        = (Some r, emit (retried url pre ++ [Politeness; Get url]) w)
      ∧ retry_status (status_code r) = false
      ∧ transport env (trace w ++ retried url pre ++ [Politeness]) url = Reply r.
Proof.
  induction attempts as [|a rest IH]; intros w.
  - left. simpl. unfold ret. by rewrite emit_nil.
  - destruct (transient (transport env (trace w ++ [Politeness]) url)) eqn:Ht.
    + rewrite polite_get_loop_retry by done.
      destruct (IH (emit (attempt_events url a) w))
        as [->|(pre & b & post & r & -> & -> & Hs & Hr)].
      * left. by rewrite emit_emit.
      * right. exists (a :: pre), b, post, r. split; [done|].
        split; [by rewrite emit_emit, retried_cons, <- app_assoc|].
        split; [done|]. by rewrite <- trace_after_attempt.
    + destruct (transport env (trace w ++ [Politeness]) url) as [r|] eqn:E; [|done].
      right. exists [], a, rest, r. split; [done|].
      split; [by apply polite_get_loop_return|]. done.
Qed.

Lemma polite_get_cases env url retries w :
  polite_get env url retries w = (None, emit (retried url (range 1 (retries + 1))) w)
  ∨ ∃ k r,
      1 ≤ k ≤ retries
      ∧ polite_get env url retries w
        = (Some r, emit (retried url (range 1 k) ++ [Politeness; Get url]) w)
      ∧ status_code r ≠ 429 ∧ status_code r < 500
      ∧ transport env (trace w ++ retried url (range 1 k) ++ [Politeness]) url = Reply r.
Proof.
  unfold polite_get.
  destruct (polite_get_loop_cases env url (range 1 (retries + 1)) w)
    as [->|(pre & k & post & r & Hsplit & Hrun & Hs & Hr)]; [by left|].
  right. exists k, r.
  destruct (range_prefix_of_split _ _ _ _ Hsplit) as [-> Hk].
  apply retry_status_false in Hs as [Hs1 Hs2].
  split; [lia|]. by rewrite Hrun.
Qed.

(** X1: whatever the remote side does, [polite_get] ends in one of two ways.
    Either every attempt of the budget was retried, each followed by its
    backoff sleep, and the result is [None]; or some attempt [k] of the budget
    got a response whose status is neither 429 nor 500 or more, the attempts
    before it were retried, and that response is returned right after its
    request. *)
Theorem polite_get_outcomes (env : Env) (url : string) (retries : Z) (w : world) :
  polite_get env url retries w = (None, emit (retried url (range 1 (retries + 1))) w)
  ∨ ∃ k r,
      1 ≤ k ≤ retries
      ∧ polite_get env url retries w
        = (Some r, emit (retried url (range 1 k) ++ [Politeness; Get url]) w)
      ∧ status_code r ≠ 429 ∧ status_code r < 500
      ∧ transport env (trace w ++ retried url (range 1 k) ++ [Politeness]) url = Reply r.
Proof.
  unfold polite_get.
  destruct (polite_get_loop_cases env url (range 1 (retries + 1)) w)
    as [->|(pre & k & post & r & Hsplit & Hrun & Hs & Hr)]; [by left|].
  right. exists k, r.
  destruct (range_prefix_of_split _ _ _ _ Hsplit) as [-> Hk].
  apply retry_status_false in Hs as [Hs1 Hs2].
  split; [lia|]. by rewrite Hrun.
Qed.

Lemma requests_app es1 es2 : requests (es1 ++ es2) = requests es1 ++ requests es2.
Proof. apply omap_app. Qed.

Lemma length_range a b : length (range a b) = Z.to_nat (b - a).
Proof. apply length_seqZ. Qed.

(** X2: [polite_get] sends all its requests to the address it was given, at
    most one per attempt of the budget and at least one when the budget is
    at least 1; with a budget below 1 it returns [None] without any sleep or
    request. *)
Theorem polite_get_request_budget (env : Env) (url : string) (retries : Z) (w : world) :
  (∃ es n,
     snd (polite_get env url retries w) = emit es w
     ∧ requests es = replicate n url
     ∧ (n ≤ Z.to_nat retries)%nat
     ∧ (1 ≤ retries → (1 ≤ n)%nat))
  ∧ (retries < 1 → polite_get env url retries w = (None, w)).
Proof.
  split.
  - destruct (polite_get_cases env url retries w)
      as [->|(k & r & Hk & -> & _)]; simpl.
    + exists (retried url (range 1 (retries + 1))), (Z.to_nat retries).
      split; [done|]. split; [|split; [done|lia]].
      rewrite requests_retried, length_range. f_equal. lia.
    + exists (retried url (range 1 k) ++ [Politeness; Get url]), (Z.to_nat k).
      split; [done|]. split; [|split; lia].
      rewrite requests_app, requests_retried, length_range. simpl.
      replace (Z.to_nat k) with (S (Z.to_nat (k - 1))) by lia.
      rewrite replicate_S_end. done.
  - intros Hr. unfold polite_get, range. rewrite seqZ_nil by lia. done.
Qed.

Lemma sum_Q_app (l1 l2 : list Q) :
  (foldr Qplus 0 (l1 ++ l2) == foldr Qplus 0 l1 + foldr Qplus 0 l2)%Q.
Proof.
  induction l1 as [|q l1 IH]; simpl; [ring|]. rewrite IH. ring.
Qed.

Lemma total_backoff_app es1 es2 :
  (total_backoff (es1 ++ es2) == total_backoff es1 + total_backoff es2)%Q.
Proof. unfold total_backoff, backoffs. rewrite omap_app. apply sum_Q_app. Qed.

(** The backoff sleeps of the attempts 1 to [k] add up to [0.75 * k * (k + 1)]
    seconds. *)
Lemma total_backoff_retried url (k : nat) :
  (total_backoff (retried url (range 1 (Z.of_nat k + 1)))
   == (3 * Z.of_nat k * (Z.of_nat k + 1)) # 4)%Q.
Proof.
  induction k as [|k IH].
  - reflexivity.
  - unfold range in *.
    replace (Z.of_nat (S k) + 1 - 1) with (Z.of_nat (S k)) by lia.
    replace (Z.of_nat k + 1 - 1) with (Z.of_nat k) in IH by lia.
    rewrite seqZ_S, retried_app, total_backoff_app, IH.
    unfold total_backoff, retried. simpl.
    unfold backoff, backoff_base, Qeq, Qplus, Qmult, inject_Z. simpl. lia.
Qed.

(** X3: the backoff sleeps of one [polite_get] call add up to at most
    [0.75 * retries * (retries + 1)] seconds (9 seconds for the budget of 3),
    and to exactly that when the call gives up with [None]. *)
Theorem polite_get_backoff_budget (env : Env) (url : string) (retries : Z) (w : world) :
  0 ≤ retries →
  ∃ es,
    snd (polite_get env url retries w) = emit es w
    ∧ (total_backoff es <= (3 * retries * (retries + 1)) # 4)%Q
    ∧ (fst (polite_get env url retries w) = None →
       (total_backoff es == (3 * retries * (retries + 1)) # 4)%Q).
Proof.
  intros Hr.
  destruct (polite_get_cases env url retries w)
    as [->|(k & r & Hk & -> & _)]; simpl.
  - exists (retried url (range 1 (retries + 1))). split; [done|].
    pose proof (total_backoff_retried url (Z.to_nat retries)) as Hsum.
    rewrite Z2Nat.id in Hsum by done.
    split; [by rewrite Hsum; apply Qle_refl|done].
  - exists (retried url (range 1 k) ++ [Politeness; Get url]). split; [done|].
    split; [|done].
    pose proof (total_backoff_retried url (Z.to_nat (k - 1))) as Hsum.
    rewrite Z2Nat.id in Hsum by lia.
    replace (k - 1 + 1) with k in Hsum by lia.
    rewrite total_backoff_app, Hsum.
    unfold total_backoff, Qle, Qplus. simpl. nia.
Qed.

(** A server that always answers 500 and the budget of 3: the call sleeps
    1.5 + 3 + 4.5 = 9 seconds in backoff. *)
Lemma polite_get_backoff_budget_witness :
  let env := stub_env (scripted [] 500) RobotsURLError (fun _ => no_document) in
  let u := "https://example.com/x" in
  0 ≤ 3
  ∧ (∃ es,
       snd (polite_get env u 3 empty_world) = emit es empty_world
       ∧ (total_backoff es <= (3 * 3 * (3 + 1)) # 4)%Q
       ∧ (fst (polite_get env u 3 empty_world) = None →
          (total_backoff es == (3 * 3 * (3 + 1)) # 4)%Q))
  ∧ (total_backoff (trace (snd (polite_get env u 3 empty_world))) == 9)%Q.
Proof.
  intros env u.
  assert (H : 0 ≤ 3) by lia.
  split; [exact H|]. split; [exact (polite_get_backoff_budget env u 3 empty_world H)|].
  reflexivity.
Defined.

(** * Pacing *)

Lemma paced_from_mono es : ∀ b, paced es = true → paced_from b es = true.
Proof.
  unfold paced. destruct es as [|[| | |] es]; intros b H; simpl in *; try done.
Qed.

Lemma paced_from_app es1 : ∀ b es2,
  paced_from b es1 = true → paced es2 = true → paced_from b (es1 ++ es2) = true.
Proof.
  induction es1 as [|e es1 IH]; intros b es2 H1 H2; simpl.
  - by apply paced_from_mono.
  - destruct e; simpl in *; try by apply IH.
    apply andb_true_iff in H1 as [-> H1]. simpl. by apply IH.
Qed.

Lemma paced_app es1 es2 :
  paced es1 = true → paced es2 = true → paced (es1 ++ es2) = true.
Proof. apply paced_from_app. Qed.

Lemma paced_retried url attempts : paced (retried url attempts) = true.
Proof.
  induction attempts as [|a l IH]; [done|].
  rewrite retried_cons. by apply paced_app.
Qed.

Lemma robots_loads_app es1 es2 :
  robots_loads (es1 ++ es2) = robots_loads es1 ++ robots_loads es2.
Proof. apply omap_app. Qed.

Lemma robots_loads_retried url attempts : robots_loads (retried url attempts) = [].
Proof.
  induction attempts as [|a l IH]; [done|].
  by rewrite retried_cons, robots_loads_app, IH.
Qed.

Lemma well_paced_app es1 es2 : well_paced es1 → well_paced es2 → well_paced (es1 ++ es2).
Proof.
  intros [H1 H2] [H3 H4]. split; [by apply paced_app|].
  by rewrite robots_loads_app, H2, H4.
Qed.

(** What one [polite_get] adds to the world. *)
Lemma polite_get_trace env url retries w :
  ∃ es n,
    snd (polite_get env url retries w) = emit es w
    ∧ requests es = replicate n url
    ∧ (n ≤ Z.to_nat retries)%nat
    ∧ (1 ≤ retries → (1 ≤ n)%nat)
    ∧ well_paced es.
Proof.
  destruct (polite_get_cases env url retries w) as [->|(k & r & Hk & -> & _)]; simpl.
  - exists (retried url (range 1 (retries + 1))), (Z.to_nat retries).
    split; [done|]. split; [|split; [done|split; [lia|]]].
    + rewrite requests_retried, length_range. f_equal. lia.
    + split; [apply paced_retried|apply robots_loads_retried].
  - exists (retried url (range 1 k) ++ [Politeness; Get url]), (Z.to_nat k).
    split; [done|]. split; [|split; [lia|split; [lia|]]].
    + rewrite requests_app, requests_retried, length_range. simpl.
      replace (Z.to_nat k) with (S (Z.to_nat (k - 1))) by lia.
      by rewrite replicate_S_end.
    + apply well_paced_app; [|done].
      split; [apply paced_retried|apply robots_loads_retried].
Qed.

(** * Page processor *)

Lemma visited_within_in_order budget allowed urls reqs :
  visited_within budget allowed urls reqs → visited_in_order urls reqs.
Proof.
  intros (counts & Hall & ->). exists counts. split; [|done].
  by eapply Forall2_length.
Qed.

Lemma visited_within_none budget allowed urls : visited_within budget allowed urls [].
Proof.
  exists (replicate (length urls) 0%nat). split.
  - induction urls as [|url urls IH]; constructor; [|exact IH]. split; [lia|done].
  - induction urls as [|url urls IH]; [done|]. exact IH.
Qed.

Section Processor.

Context (env : Env) (rp : RobotFileParser) (ua : string).

Lemma fetch_detail_html_eq url w :
  fetch_detail_html env url w
  = let (resp, w1) := polite_get env url MAX_DETAIL_RETRIES w in
    (match resp with
     | Some r => if failed_response resp then None else Some (text r)
     | None => None
     end, w1).
Proof.
  unfold fetch_detail_html, bind.
  destruct (polite_get env url MAX_DETAIL_RETRIES w) as [[r|] w1]; [|done].
  by destruct (failed_response (Some r)).
Qed.

Lemma fetch_detail_html_trace url w :
  ∃ es n,
    snd (fetch_detail_html env url w) = emit es w
    ∧ requests es = replicate n url ∧ (n ≤ 3)%nat ∧ well_paced es.
Proof.
  rewrite fetch_detail_html_eq.
  destruct (polite_get_trace env url MAX_DETAIL_RETRIES w) as (es & n & Hw & Hreq & Hn & _ & Hp).
  destruct (polite_get env url MAX_DETAIL_RETRIES w) as [resp w1]. simpl in *.
  exists es, n. split; [done|]. split; [done|]. split; [|done].
  unfold MAX_DETAIL_RETRIES in Hn. lia.
Qed.

Lemma detail_loop_cons reg_no url rest m w :
  detail_loop env rp ua ((reg_no, url) :: rest) m w
  = if can_fetch env rp ua (urlparse_path env url) then
      let (html, w1) := fetch_detail_html env url w in
      match html with
      | Some content =>
          if is_empty content then detail_loop env rp ua rest m w1
          else detail_loop env rp ua rest (<[reg_no := content]> m) w1
      | None => detail_loop env rp ua rest m w1
      end
    else detail_loop env rp ua rest m w.
Proof.
  simpl. destruct (can_fetch env rp ua (urlparse_path env url)); simpl; [|done].
  unfold bind. destruct (fetch_detail_html env url w) as [[content|] w1]; [|done].
  by destruct (is_empty content).
Qed.

(** The loop over the items refines the relation of the specification. *)
Lemma detail_loop_run items : ∀ m w,
  detail_run env rp ua items m w
    (fst (detail_loop env rp ua items m w)) (snd (detail_loop env rp ua items m w)).
Proof.
  induction items as [|[reg_no url] rest IH]; intros m w.
  - constructor.
  - rewrite detail_loop_cons.
    destruct (can_fetch env rp ua (urlparse_path env url)) eqn:Hgate;
      [|by apply detail_denied, IH].
    rewrite fetch_detail_html_eq.
    destruct (polite_get env url MAX_DETAIL_RETRIES w) as [resp w1] eqn:Hget.
    destruct resp as [r|].
    + destruct (failed_response (Some r)) eqn:Hfail.
      * eapply detail_omitted; [done|exact Hget| |apply IH].
        left. by apply failed_response_iff.
      * destruct (is_empty (text r)) eqn:Hempty.
        -- eapply detail_omitted; [done|exact Hget| |apply IH].
           right. exists r. split; [done|]. by destruct (text r).
        -- eapply detail_stored; [done|exact Hget| | |apply IH].
           ++ by apply failed_response_false.
           ++ intros Heq. by rewrite Heq in Hempty.
    + eapply detail_omitted; [done|exact Hget|by left|apply IH].
Qed.

(** The detail phase only adds events; its requests go through the items in
    order, at most three to each and none to an item whose path is denied,
    and each comes after a politeness delay. *)
Lemma detail_loop_visits items : ∀ m w,
  ∃ es,
    snd (detail_loop env rp ua items m w) = emit es w
    ∧ well_paced es
    ∧ visited_within 3 (fun url => can_fetch env rp ua (urlparse_path env url))
        (snd <$> items) (requests es).
Proof.
  induction items as [|[reg_no url] rest IH]; intros m w.
  - exists []. simpl. rewrite emit_nil. split; [done|]. split; [done|].
    exists []. split; [constructor|done].
  - rewrite detail_loop_cons.
    destruct (can_fetch env rp ua (urlparse_path env url)) eqn:Hgate.
    + destruct (fetch_detail_html_trace url w) as (es1 & n & Hw1 & Hreq1 & Hn & Hp1).
      destruct (fetch_detail_html env url w) as [html w1]. simpl in Hw1. subst w1.
      assert (∀ m1, ∃ es,
                snd (detail_loop env rp ua rest m1 (emit es1 w)) = emit es w
                ∧ well_paced es
                ∧ visited_within 3 (fun url => can_fetch env rp ua (urlparse_path env url))
                    (url :: (snd <$> rest)) (requests es)) as Hnext.
      { intros m1. destruct (IH m1 (emit es1 w)) as (es & -> & Hp & counts & Hall & Hreq).
        exists (es1 ++ es). rewrite emit_emit. split; [done|].
        split; [by apply well_paced_app|].
        exists (n :: counts). split.
        - constructor; [|done]. split; [done|]. intros Hno. congruence.
        - rewrite requests_app, Hreq1, Hreq. done. }
      destruct html as [content|]; [destruct (is_empty content)|]; apply Hnext.
    + destruct (IH m w) as (es & -> & Hp & counts & Hall & Hreq).
      exists es. split; [done|]. split; [done|].
      exists (0%nat :: counts). split; [|done].
      constructor; [|done]. split; [lia|done].
Qed.

Lemma detail_loop_files items m w :
  files (snd (detail_loop env rp ua items m w)) = files w.
Proof. by destruct (detail_loop_visits items m w) as (es & -> & _). Qed.

(** The records of the detail phase: what was not in the mapping before is a
    non-empty content stored under the id of an allowed item. *)
Lemma detail_loop_records items : ∀ m w k v,
  fst (detail_loop env rp ua items m w) !! k = Some v →
  m !! k = Some v
  ∨ (v ≠ "" ∧ ∃ url, (k, url) ∈ items
                     ∧ can_fetch env rp ua (urlparse_path env url) = true).
Proof.
  induction items as [|[reg_no url] rest IH]; intros m w k v; [by left|].
  rewrite detail_loop_cons.
  assert (∀ m1 w1, fst (detail_loop env rp ua rest m1 w1) !! k = Some v →
            m1 = m →
            m !! k = Some v
            ∨ (v ≠ "" ∧ ∃ url', (k, url') ∈ (reg_no, url) :: rest
                 ∧ can_fetch env rp ua (urlparse_path env url') = true)) as Hsame.
  { intros m1 w1 H ->. destruct (IH m w1 k v H) as [|(Hv & url' & Hin & Hok)]; [by left|].
    right. split; [done|]. exists url'. split; [by right|done]. }
  destruct (can_fetch env rp ua (urlparse_path env url)) eqn:Hgate;
    [|intros H; by eapply Hsame].
  destruct (fetch_detail_html env url w) as [[content|] w1];
    [|intros H; by eapply Hsame].
  destruct (is_empty content) eqn:Hempty; [intros H; by eapply Hsame|].
  intros H. destruct (IH _ w1 k v H) as [Hk|(Hv & url' & Hin & Hok)].
  - destruct (decide (reg_no = k)) as [->|Hne].
    + rewrite lookup_insert_eq in Hk. injection Hk as <-.
      right. split; [intros ->; done|]. exists url. split; [left|done].
    + rewrite lookup_insert_ne in Hk by done. by left.
  - right. split; [done|]. exists url'. split; [by right|done].
Qed.

(** The page processor, case by case. *)
Lemma process_one_page_eq page w :
  process_one_page env rp ua page w
  = if can_fetch env rp ua "/home/DrugSearch" then
      let (resp, w1) := polite_get env (list_url env page) MAX_LIST_RETRIES w in
      match resp with
      | Some r =>
          if failed_response resp then (Ok false, w1)
          else
            match parse_listing_for_items env (text r) with
            | Ok items =>
                let (m, w2) := detail_loop env rp ua items ∅ w1 in
                (Ok true, write_file page m w2)
            | ValueError => (ValueError, w1)
            end
      | None => (Ok false, w1)
      end
    else (Ok false, w).
Proof.
  unfold process_one_page.
  destruct (can_fetch env rp ua "/home/DrugSearch"); [|done]. cbn [negb]. unfold bind.
  destruct (polite_get env (list_url env page) MAX_LIST_RETRIES w) as [[r|] w1]; [|done].
  destruct (failed_response (Some r)); [done|].
  destruct (parse_listing_for_items env (text r)) as [items|]; [|done].
  by destruct (detail_loop env rp ua items ∅ w1).
Qed.

(** What the page processor does to the output directory: one write of its
    own page when it returns [true], nothing when it returns [false] or
    raises. *)
Lemma process_one_page_files page w :
  let res := process_one_page env rp ua page w in
  (fst res ≠ Ok true ∧ files (snd res) = files w)
  ∨ (fst res = Ok true ∧ ∃ m, files (snd res) = <[page := m]> (files w)).
Proof.
  cbv zeta. rewrite process_one_page_eq.
  destruct (can_fetch env rp ua "/home/DrugSearch"); [|by left].
  pose proof (polite_get_files env (list_url env page) MAX_LIST_RETRIES w) as Hf.
  destruct (polite_get env (list_url env page) MAX_LIST_RETRIES w) as [[r|] w1];
    simpl in Hf; [|by left].
  destruct (failed_response (Some r)); [by left|].
  destruct (parse_listing_for_items env (text r)) as [items|]; [|by left].
  pose proof (detail_loop_files items ∅ w1) as Hd.
  destruct (detail_loop env rp ua items ∅ w1) as [m w2]. simpl in *.
  right. split; [done|]. exists m. by rewrite Hd, Hf.
Qed.

(** The events of one call: the listing fetch, then the detail phase. *)
Lemma process_one_page_events page w :
  ∃ es0 es1 n,
    trace (snd (process_one_page env rp ua page w)) = trace w ++ es0 ++ es1
    ∧ requests es0 = replicate n (list_url env page)
    ∧ (n ≤ 3)%nat
    ∧ (can_fetch env rp ua "/home/DrugSearch" = true → (1 ≤ n)%nat)
    ∧ (can_fetch env rp ua "/home/DrugSearch" = false → es0 = [])
    ∧ visited_within 3 (fun url => can_fetch env rp ua (urlparse_path env url))
        (snd <$> listed_items env page w) (requests es1)
    ∧ (fst (process_one_page env rp ua page w) ≠ Ok true → es1 = [])
    ∧ well_paced (es0 ++ es1).
Proof.
  rewrite process_one_page_eq.
  destruct (can_fetch env rp ua "/home/DrugSearch") eqn:Hgate.
  2:{ exists [], [], 0%nat. rewrite !app_nil_r.
      split; [done|]. split; [done|]. split; [lia|]. split; [done|]. split; [done|].
      split; [apply visited_within_none|done]. }
  unfold listed_items.
  destruct (polite_get_trace env (list_url env page) MAX_LIST_RETRIES w)
    as (es0 & n & Hw0 & Hreq0 & Hn & Hn1 & Hp0).
  destruct (polite_get env (list_url env page) MAX_LIST_RETRIES w) as [resp w1].
  simpl in Hw0. subst w1. cbn [fst].
  assert (Hnone : ∀ items : list (string * string),
    trace (emit es0 w) = trace w ++ es0 ++ []
    ∧ requests es0 = replicate n (list_url env page)
    ∧ (n ≤ 3)%nat ∧ (true = true → (1 ≤ n)%nat) ∧ (true = false → es0 = [])
    ∧ visited_within 3 (fun url => can_fetch env rp ua (urlparse_path env url))
        (snd <$> items) (requests [])
    ∧ (∀ P : Prop, P → @nil event = [])
    ∧ well_paced (es0 ++ [])).
  { intros items. rewrite !app_nil_r. unfold MAX_LIST_RETRIES in *.
    split; [done|]. split; [done|]. split; [lia|].
    split; [intros _; apply Hn1; lia|]. split; [done|].
    split; [apply visited_within_none|done]. }
  destruct resp as [r|].
  2:{ destruct (Hnone []) as (H1 & H2 & H3 & H4 & H5 & H6 & H7 & H8).
      exists es0, [], n. done. }
  destruct (failed_response (Some r)) eqn:Hfail.
  { destruct (parse_listing_for_items env (text r)) as [items|].
    - destruct (Hnone items) as (H1 & H2 & H3 & H4 & H5 & H6 & H7 & H8).
      exists es0, [], n. done.
    - destruct (Hnone []) as (H1 & H2 & H3 & H4 & H5 & H6 & H7 & H8).
      exists es0, [], n. done. }
  destruct (parse_listing_for_items env (text r)) as [items|].
  2:{ destruct (Hnone []) as (H1 & H2 & H3 & H4 & H5 & H6 & H7 & H8).
      exists es0, [], n. done. }
  destruct (detail_loop_visits items ∅ (emit es0 w)) as (es1 & Hw1 & Hp1 & Hvisit).
  destruct (detail_loop env rp ua items ∅ (emit es0 w)) as [m w2]. simpl in Hw1. subst w2.
  exists es0, es1, n. cbn [fst snd write_file emit trace].
  unfold MAX_LIST_RETRIES in *.
  split; [by rewrite <- app_assoc|]. split; [done|]. split; [lia|].
  split; [intros _; apply Hn1; lia|]. split; [done|]. split; [done|].
  split; [done|]. by apply well_paced_app.
Qed.

End Processor.

Lemma process_one_page_frame env : processor_frame (process_one_page env).
Proof.
  intros rp ua page w q Hne.
  destruct (process_one_page_files env rp ua page w) as [[_ ->]|[_ [m ->]]]; [done|].
  by rewrite lookup_insert_ne.
Qed.

Lemma process_one_page_saves env : processor_saves (process_one_page env).
Proof.
  intros rp ua page w Hok.
  destruct (process_one_page_files env rp ua page w) as [[Hf _]|[_ [m ->]]];
    [congruence|].
  rewrite lookup_insert_eq. by eexists.
Qed.

(** C6: when the fetch of the listing page gives no response or a status
    other than 200, the page processor returns [false] and the output
    directory is as it was. *)
Theorem process_one_page_listing_failure (env : Env) (rp : RobotFileParser)
    (ua : string) (page_index : Z) (w : world) :
  absent_or_not_200 (fst (polite_get env (list_url env page_index) MAX_LIST_RETRIES w)) →
  fst (process_one_page env rp ua page_index w) = Ok false
  ∧ files (snd (process_one_page env rp ua page_index w)) = files w.
Proof.
  intros Hfail. apply failed_response_iff in Hfail.
  rewrite process_one_page_eq.
  destruct (can_fetch env rp ua "/home/DrugSearch"); [|done].
  pose proof (polite_get_files env (list_url env page_index) MAX_LIST_RETRIES w) as Hf.
  destruct (polite_get env (list_url env page_index) MAX_LIST_RETRIES w) as [[r|] w1];
    cbn [fst snd] in *; [|done].
  by rewrite Hfail.
Qed.

(** The listing page answers 404: the page fails and nothing is written. *)
Lemma process_one_page_listing_failure_witness :
  let env := stub_env (site [] 404) (RobotsLines []) (fun _ => listing_document two_rows) in
  absent_or_not_200 (fst (polite_get env (list_url env 1) MAX_LIST_RETRIES empty_world))
  ∧ fst (process_one_page env permissive_rp "test-agent" 1 empty_world) = Ok false
  ∧ files (snd (process_one_page env permissive_rp "test-agent" 1 empty_world)) = ∅.
Proof.
  intros env.
  assert (H : absent_or_not_200
                (fst (polite_get env (list_url env 1) MAX_LIST_RETRIES empty_world)))
    by (vm_compute; discriminate).
  split; [exact H|].
  exact (process_one_page_listing_failure env permissive_rp "test-agent" 1 empty_world H).
Defined.

(** C7 fails on the code.  With the listing path allowed and the listing
    fetched with status 200, the page processor does what the claim says
    whenever [parse_listing_for_items] returns: it goes through the extracted
    items in order as the specification describes, writes the resulting
    mapping under the page index and returns [true], whatever happens to the
    single items.  But when [parse_listing_for_items] raises, on a reference
    that [urljoin] cannot join, the exception leaves the page processor:
    nothing is returned and nothing is written, and the world is the one the
    listing fetch left. *)
Theorem process_one_page_details (env : Env) (rp : RobotFileParser) (ua : string)
    (page_index : Z) (w w1 : world) (r : Response) :
  can_fetch env rp ua "/home/DrugSearch" = true →
  polite_get env (list_url env page_index) MAX_LIST_RETRIES w = (Some r, w1) →
  status_code r = 200 →
  match parse_listing_for_items env (text r) with
  | Ok items =>
      ∃ m w2 es,
        process_one_page env rp ua page_index w = (Ok true, write_file page_index m w2)
        ∧ detail_run env rp ua items ∅ w1 m w2
        ∧ w2 = emit es w1
        ∧ visited_in_order (snd <$> items) (requests es)
  | ValueError =>
      process_one_page env rp ua page_index w = (ValueError, w1)
      ∧ files w1 = files w
  end.
Proof.
  intros Hgate Hget Hstatus.
  assert (failed_response (Some r) = false) as Hok.
  { destruct (failed_response (Some r)) eqn:E; [|done].
    apply failed_response_iff in E. done. }
  pose proof (polite_get_files env (list_url env page_index) MAX_LIST_RETRIES w) as Hf.
  rewrite process_one_page_eq, Hgate, Hget, Hok. rewrite Hget in Hf. simpl in Hf.
  destruct (parse_listing_for_items env (text r)) as [items|]; [|done].
  pose proof (detail_loop_run env rp ua items ∅ w1) as Hrun.
  destruct (detail_loop_visits env rp ua items ∅ w1) as (es & Hes & _ & Hord).
  destruct (detail_loop env rp ua items ∅ w1) as [m w2]. simpl in *.
  exists m, w2, es. split; [done|]. split; [done|]. split; [done|].
  by eapply visited_within_in_order.
Qed.

(** A listing of two rows whose second link is ["//["]: the listing is
    fetched with status 200, [urljoin] raises on the second row, and the page
    processor raises with it; no file is written, not even for the first
    item. *)
Lemma process_one_page_details_witness :
  let listing := "https://example.com/home/DrugSearch?page=1" in
  let w1 := mkWorld ∅ [Politeness; Get listing] in
  can_fetch broken_link_env permissive_rp "test-agent" "/home/DrugSearch" = true
  ∧ polite_get broken_link_env (list_url broken_link_env 1) MAX_LIST_RETRIES empty_world
    = (Some (mkResponse 200 "<table>"), w1)
  ∧ parse_listing_for_items broken_link_env "<table>" = ValueError
  ∧ process_one_page broken_link_env permissive_rp "test-agent" 1 empty_world
    = (ValueError, w1)
  ∧ files w1 = ∅.
Proof.
  intros listing w1.
  assert (Hgate : can_fetch broken_link_env permissive_rp "test-agent" "/home/DrugSearch"
                  = true) by reflexivity.
  assert (Hget : polite_get broken_link_env (list_url broken_link_env 1) MAX_LIST_RETRIES
                   empty_world
                 = (Some (mkResponse 200 "<table>"), w1)) by reflexivity.
  split; [exact Hgate|]. split; [exact Hget|]. split; [reflexivity|].
  exact (process_one_page_details broken_link_env permissive_rp "test-agent" 1
           empty_world w1 (mkResponse 200 "<table>") Hgate Hget eq_refl).
Defined.

(** Where the parser returns, the claim holds: two items, the first detail
    page is fetched, the second one fails three times; the page is written
    with one record and the processor returns [true]. *)
Example process_one_page_details_example :
  fst (process_one_page two_item_env permissive_rp "test-agent" 1 empty_world) = Ok true
  ∧ files (snd (process_one_page two_item_env permissive_rp "test-agent" 1 empty_world))
    = {[ 1 := {[ "REG-1" := "<html>one</html>" ]} ]}
  ∧ requests (trace (snd (process_one_page two_item_env permissive_rp "test-agent" 1
                            empty_world)))
    = ["https://example.com/home/DrugSearch?page=1";
       "https://example.com/home/Result?drugId=1";
       "https://example.com/home/Result?drugId=2";
       "https://example.com/home/Result?drugId=2";
       "https://example.com/home/Result?drugId=2"].
Proof. split; [|split]; vm_compute; reflexivity. Qed.

(** * Further properties of the page processor *)


(** X9: when the page processor returns [true], the listing was fetched with
    status 200 and the file of the page now holds a mapping in which every
    record is a non-empty content stored under the record id of an item of
    that listing whose detail path the policy allows; a listing without
    items gives the empty mapping. *)
Theorem process_one_page_saved_records (env : Env) (rp : RobotFileParser)
    (ua : string) (page_index : Z) (w : world) :
  fst (process_one_page env rp ua page_index w) = Ok true →
  ∃ r m items,
    fst (polite_get env (list_url env page_index) MAX_LIST_RETRIES w) = Some r
    ∧ status_code r = 200
    ∧ parse_listing_for_items env (text r) = Ok items
    ∧ files (snd (process_one_page env rp ua page_index w))
      = <[page_index := m]> (files w)
    ∧ (∀ k v, m !! k = Some v →
         v ≠ "" ∧ ∃ url, (k, url) ∈ items
                         ∧ can_fetch env rp ua (urlparse_path env url) = true)
    ∧ (items = [] → m = ∅).
Proof.
  rewrite process_one_page_eq.
  destruct (can_fetch env rp ua "/home/DrugSearch"); [|done].
  pose proof (polite_get_files env (list_url env page_index) MAX_LIST_RETRIES w) as Hf.
  destruct (polite_get env (list_url env page_index) MAX_LIST_RETRIES w) as [[r|] w1];
    cbn [fst snd] in *; [|done].
  destruct (failed_response (Some r)) eqn:Hfail; [done|].
  destruct (parse_listing_for_items env (text r)) as [items|] eqn:Hparse; [|done].
  intros _.
  pose proof (detail_loop_files env rp ua items ∅ w1) as Hd.
  pose proof (detail_loop_records env rp ua items ∅ w1) as Hrec.
  destruct (detail_loop env rp ua items ∅ w1) as [m w2]. simpl in *.
  assert (Hsound : ∀ k v, m !! k = Some v →
            v ≠ "" ∧ ∃ url, (k, url) ∈ items
                            ∧ can_fetch env rp ua (urlparse_path env url) = true).
  { intros k v Hk. destruct (Hrec k v Hk) as [Hempty|H]; [|done].
    by rewrite lookup_empty in Hempty. }
  exists r, m, items. split; [done|]. split; [by apply failed_response_false|].
  split; [done|]. split; [by rewrite Hd, Hf|]. split; [exact Hsound|].
  intros Hnone. apply map_empty. intros k.
  destruct (m !! k) as [v|] eqn:Hk; [|done].
  destruct (Hsound k v Hk) as (_ & url & Hin & _).
  rewrite Hnone in Hin. by apply elem_of_nil in Hin.
Qed.

(** The two-item page: the saved mapping holds the one record that was
    fetched. *)
Lemma process_one_page_saved_records_witness :
  fst (process_one_page two_item_env permissive_rp "test-agent" 1 empty_world) = Ok true
  ∧ ∃ r m items,
      fst (polite_get two_item_env (list_url two_item_env 1) MAX_LIST_RETRIES empty_world)
      = Some r
      ∧ status_code r = 200
      ∧ parse_listing_for_items two_item_env (text r) = Ok items
      ∧ files (snd (process_one_page two_item_env permissive_rp "test-agent" 1 empty_world))
        = <[1 := m]> (files empty_world)
      ∧ (∀ k v, m !! k = Some v →
           v ≠ "" ∧ ∃ url, (k, url) ∈ items
                           ∧ can_fetch two_item_env permissive_rp "test-agent"
                               (urlparse_path two_item_env url) = true)
      ∧ (items = [] → m = ∅).
Proof.
  assert (H : fst (process_one_page two_item_env permissive_rp "test-agent" 1 empty_world)
              = Ok true) by (vm_compute; reflexivity).
  split; [exact H|].
  exact (process_one_page_saved_records two_item_env permissive_rp "test-agent" 1
           empty_world H).
Defined.

(** * Listing parser *)

Lemma node_tree_ind (P : node → Prop) :
  (∀ s, P (Text s)) →
  (∀ s, P (Comment s)) →
  (∀ name classes attrs children,
     Forall P children → P (Tag name classes attrs children)) →
  ∀ n, P n.
Proof.
  intros Htext Hcomment Htag. fix IH 1.
  intros [s|s|name classes attrs children]; [apply Htext|apply Hcomment|].
  apply Htag. induction children as [|c l IHl]; constructor; [apply IH|exact IHl].
Qed.

(** A selector of one compound picks the matching descendants. *)
Lemma select_under_single c n : ∀ ancestors,
  select_under c [] ancestors n = List.filter (matches_compound c) (descendants n).
Proof.
  induction n as [s|s|name classes attrs children IH] using node_tree_ind;
    intros ancestors; [done|done|].
  simpl. generalize (Tag name classes attrs children :: ancestors). intros above.
  induction IH as [|d l Hd _ IHl]; [done|].
  rewrite Hd, IHl. simpl. rewrite List.filter_app, andb_true_r.
  by destruct (matches_compound c d).
Qed.

Lemma select_tr n : select sel_tr n = find_all "tr" n.
Proof.
  unfold select, sel_tr, find_all. simpl. rewrite select_under_single.
  apply List.filter_ext. intros [s|s|name classes attrs children]; try done.
  simpl. by rewrite !andb_true_r.
Qed.

Lemma select_a_href n : select sel_a_href n = find_all_with "a" "href" n.
Proof.
  unfold select, sel_a_href, find_all_with. simpl. rewrite select_under_single.
  apply List.filter_ext. intros [s|s|name classes attrs children]; try done.
  simpl. by rewrite !andb_true_r.
Qed.

(** ** Calls that can raise *)

Lemma traverse_Ok {A B : Type} (f : A → result B) l : ∀ l',
  traverse f l = Ok l' ↔ Forall2 (fun a b => f a = Ok b) l l'.
Proof.
  induction l as [|a l IH]; intros l'; simpl.
  - split.
    + intros [= <-]. constructor.
    + intros H. by inversion H.
  - destruct (f a) as [b|] eqn:Hfa.
    + destruct (traverse f l) as [bs|].
      * split.
        -- intros [= <-]. constructor; [done|]. by apply IH.
        -- intros H. inversion H as [|? b' ? bs' Hb Hbs]; subst.
           apply IH in Hbs. congruence.
      * split; [done|].
        intros H. inversion H as [|? b' ? bs' Hb Hbs]; subst.
        by apply IH in Hbs.
    + split; [done|]. intros H. inversion H; subst. congruence.
Qed.

Lemma traverse_app {A B : Type} (f : A → result B) l1 l2 :
  traverse f (l1 ++ l2)
  = match traverse f l1 with
    | Ok bs1 =>
        match traverse f l2 with
        | Ok bs2 => Ok (bs1 ++ bs2)
        | ValueError => ValueError
        end
    | ValueError => ValueError
    end.
Proof.
  induction l1 as [|a l1 IH]; simpl.
  - by destruct (traverse f l2).
  - destruct (f a) as [b|]; [|done]. rewrite IH.
    destruct (traverse f l1) as [bs1|]; [|done].
    by destruct (traverse f l2).
Qed.

Lemma traverse_ValueError {A B : Type} (f : A → result B) l :
  traverse f l = ValueError ↔ ∃ a, a ∈ l ∧ f a = ValueError.
Proof.
  induction l as [|a l IH]; simpl.
  - split; [done|]. by intros (a & ?%elem_of_nil & _).
  - destruct (f a) as [b|] eqn:Hfa.
    + destruct (traverse f l) as [bs|].
      * split; [done|]. intros (x & [->|Hx]%elem_of_cons & Hf); [congruence|].
        assert (Ok bs = ValueError) as H by (apply IH; by exists x). done.
      * split; [|done]. intros _.
        destruct (proj1 IH eq_refl) as (x & Hx & Hf). exists x. split; [by right|done].
    + split; [|done]. intros _. exists a. split; [left|done].
Qed.

Section Listing.

Context (env : Env).

Lemma resolve_Ok candidate item :
  resolve env candidate = Ok item ↔ resolved env candidate item.
Proof.
  unfold resolve, resolved. destruct item as [reg_no url].
  destruct (urljoin env (BASE_URL env) (snd candidate)) as [url'|]; simpl.
  - split; [by intros [= <- <-]|]. intros [-> [= ->]]. done.
  - split; [done|]. by intros [_ ?].
Qed.

(** The loop with its [continue] branches gives the rows that make an item,
    in order, each with its reference resolved, and raises when one of the
    references cannot be resolved. *)
Lemma listing_loop_spec rows : ∀ items,
  listing_loop env rows items
  = match traverse (resolve env) (omap (row_below env) rows) with
    | Ok new => Ok (items ++ new)
    | ValueError => ValueError
    end.
Proof.
  induction rows as [|tr rest IH]; intros items; [simpl; by rewrite app_nil_r|].
  cbn [listing_loop omap list_omap]. unfold row_below at 1.
  destruct (Z.of_nat (length (find_all "td" tr)) <? 5) eqn:Hlen.
  { apply Z.ltb_lt in Hlen. rewrite decide_False by lia. apply IH. }
  apply Z.ltb_ge in Hlen. rewrite decide_True by lia.
  destruct (head (find_all "td" tr)) as [first_cell|]; simpl; [|apply IH].
  destruct (last (find_all "td" tr)) as [last_cell|]; simpl; [|apply IH].
  unfold select_one. rewrite select_a_href.
  destruct (head (find_all_with "a" "href" last_cell)) as [anchor|]; simpl; [|apply IH].
  destruct (is_empty (strip env (get_text_strip env first_cell))) eqn:Hempty.
  - destruct (attr_get "href" anchor); simpl;
      rewrite ?decide_True by (by destruct (strip env _)); apply IH.
  - destruct (attr_get "href" anchor) as [href|]; simpl; [|apply IH].
    rewrite decide_False by (intros Heq; by rewrite Heq in Hempty).
    simpl. unfold resolve at 1. simpl.
    destruct (urljoin env (BASE_URL env) href) as [url|]; [|done].
    rewrite IH. destruct (traverse (resolve env) (omap (row_below env) rest)); [|done].
    by rewrite <- app_assoc.
Qed.

Lemma parse_listing_for_items_eq html :
  parse_listing_for_items env html
  = match select_one sel_results_tbody (BeautifulSoup env html) with
    | None => Ok []
    | Some tbody => traverse (resolve env) (candidates env tbody)
    end.
Proof.
  unfold parse_listing_for_items, candidates.
  destruct (select_one sel_results_tbody (BeautifulSoup env html)) as [tbody|]; [|done].
  rewrite listing_loop_spec, select_tr.
  by destruct (traverse _ _).
Qed.

(** What a candidate is made of. *)
Lemma row_below_Some tr reg_no href :
  row_below env tr = Some (reg_no, href) →
  (5 ≤ length (find_all "td" tr))%nat
  ∧ reg_no ≠ ""
  ∧ ∃ first_cell last_cell anchor,
      head (find_all "td" tr) = Some first_cell
      ∧ last (find_all "td" tr) = Some last_cell
      ∧ reg_no = strip env (get_text_strip env first_cell)
      ∧ head (find_all_with "a" "href" last_cell) = Some anchor
      ∧ attr_get "href" anchor = Some href.
Proof.
  unfold row_below.
  destruct (decide (5 ≤ length (find_all "td" tr))%nat) as [Hlen|]; [|done].
  destruct (head (find_all "td" tr)) as [first_cell|]; [|done].
  destruct (last (find_all "td" tr)) as [last_cell|]; [|done].
  simpl.
  destruct (head (find_all_with "a" "href" last_cell)) as [anchor|] eqn:Hanchor; [|done].
  simpl.
  destruct (attr_get "href" anchor) as [href'|] eqn:Hhref; [|done].
  simpl.
  destruct (decide (strip env (get_text_strip env first_cell) = "")) as [|Hne]; [done|].
  intros [= <- <-]. split; [done|]. split; [done|].
  by exists first_cell, last_cell, anchor.
Qed.

Lemma anchor_numbers_spec anchors : ∀ nums,
  anchor_numbers env anchors nums
  = match traverse (int env) (numeric_labels env anchors) with
    | Ok new => Ok (nums ++ new)
    | ValueError => ValueError
    end.
Proof.
  unfold numeric_labels.
  induction anchors as [|a rest IH]; intros nums; [simpl; by rewrite app_nil_r|].
  simpl. destruct (isdigit env (get_text_strip env a)); [|apply IH].
  simpl. destruct (int env (get_text_strip env a)) as [n|]; [|done].
  rewrite IH. destruct (traverse _ _); [|done]. by rewrite <- app_assoc.
Qed.

(** The numbers [find_last_page_number] reads: the numeric labels of the
    anchors with an [href], then the label of the first [span], when it is
    numeric. *)
Lemma find_last_page_number_eq html :
  find_last_page_number env html
  = match select_one sel_ul_pagination (BeautifulSoup env html) with
    | None => Ok None
    | Some ul =>
        match traverse (int env)
                (numeric_labels env (find_all_with "a" "href" ul)
                 ++ numeric_labels env (option_list (find_first "span" ul))) with
        | Ok nums => Ok (max_or_none nums)
        | ValueError => ValueError
        end
    end.
Proof.
  unfold find_last_page_number.
  destruct (select_one sel_ul_pagination (BeautifulSoup env html)) as [ul|]; [|done].
  rewrite anchor_numbers_spec, traverse_app. cbn [app].
  destruct (traverse (int env) (numeric_labels env (find_all_with "a" "href" ul)))
    as [nums|]; [|done].
  destruct (find_first "span" ul) as [sp|]; simpl.
  - unfold numeric_labels. simpl.
    destruct (isdigit env (get_text_strip env sp)); simpl; [|by rewrite app_nil_r].
    by destruct (int env (get_text_strip env sp)).
  - by rewrite app_nil_r.
Qed.

End Listing.

Lemma foldl_max_spec l : ∀ n m,
  foldl Z.max n l = m ↔ (m = n ∨ m ∈ l) ∧ n ≤ m ∧ ∀ k, k ∈ l → k ≤ m.
Proof.
  induction l as [|x l IH]; intros n m; simpl.
  - split.
    + intros <-. split; [by left|]. split; [lia|]. intros k Hk. by apply elem_of_nil in Hk.
    + intros ([->|Hin] & _ & _); [done|]. by apply elem_of_nil in Hin.
  - rewrite IH. split.
    + intros (Hm & Hle & Hall). split; [|split; [lia|]].
      * destruct Hm as [->|Hin]; [|right; by right].
        destruct (Z.max_spec n x) as [[_ ->]|[_ ->]]; [right; left|by left].
      * intros k [->|Hk]%elem_of_cons; [lia|by apply Hall].
    + intros (Hm & Hle & Hall).
      assert (x ≤ m) by (apply Hall; left).
      split; [|split; [lia|]].
      * destruct Hm as [->|[->|Hin]%elem_of_cons]; [left; lia|left; lia|by right].
      * intros k Hk. apply Hall. by right.
Qed.

(** [max_or_none] gives the greatest element, and nothing for no element. *)
Lemma max_or_none_Some l m :
  max_or_none l = Some m ↔ m ∈ l ∧ ∀ k, k ∈ l → k ≤ m.
Proof.
  destruct l as [|n l]; simpl.
  - split; [done|]. intros [Hin _]. by apply elem_of_nil in Hin.
  - split.
    + intros [= H]. apply foldl_max_spec in H as (Hm & Hle & Hall). split.
      * destruct Hm as [->|Hin]; [left|by right].
      * intros k [->|Hk]%elem_of_cons; [done|by apply Hall].
    + intros [Hin Hall]. f_equal. apply foldl_max_spec. split; [|split].
      * apply elem_of_cons in Hin as [->|Hin]; [by left|by right].
      * apply Hall. left.
      * intros k Hk. apply Hall. by right.
Qed.

Lemma max_or_none_None l : max_or_none l = None ↔ l = [].
Proof. by destruct l. Qed.

Lemma descendants_tag name classes attrs children :
  descendants (Tag name classes attrs children)
  = children ≫= (fun c => c :: descendants c).
Proof.
  simpl. induction children as [|c l IH]; [done|]. simpl. by rewrite IH.
Qed.

Lemma select_under_tag last outer above name classes attrs children :
  select_under last outer above (Tag name classes attrs children)
  = children ≫= (fun c =>
      (if matches_compound last c
          && ancestors_match (Tag name classes attrs children :: above) outer
       then [c] else [])
      ++ select_under last outer (Tag name classes attrs children :: above) c).
Proof.
  cbn [select_under].
  generalize (Tag name classes attrs children :: above). intros chain.
  induction children as [|c l IH]; [done|].
  cbn [mbind list_bind]. rewrite IH. by rewrite <- app_assoc.
Qed.

(** When the descendant combinator is satisfied, each outer compound is
    matched by one of the ancestors. *)
Lemma ancestors_match_witness chain : ∀ outer,
  ancestors_match chain outer = true →
  ∀ c, c ∈ outer → ∃ a, a ∈ chain ∧ matches_compound c a = true.
Proof.
  induction chain as [|a chain IH]; intros outer H c Hc.
  - destruct outer; [by apply elem_of_nil in Hc|done].
  - destruct outer as [|c0 outer]; [by apply elem_of_nil in Hc|].
    simpl in H. destruct (matches_compound c0 a) eqn:Hm.
    + apply elem_of_cons in Hc as [->|Hc].
      * exists a. split; [left|done].
      * destruct (IH outer H c Hc) as (b & Hb & Hmb). exists b. split; [by right|done].
    + destruct (IH (c0 :: outer) H c Hc) as (b & Hb & Hmb).
      exists b. split; [by right|done].
Qed.

(** What [select_under] returns matches the last compound, lies below the
    node, and has a chain of ancestors that satisfies the outer compounds;
    the members of the chain are the given ones, the node or nodes below it,
    and all of the latter have the returned node below them. *)
Lemma select_under_sound last outer n : ∀ above x,
  x ∈ select_under last outer above n →
  matches_compound last x = true
  ∧ x ∈ descendants n
  ∧ ∃ chain, ancestors_match chain outer = true
      ∧ ∀ a, a ∈ chain →
          a ∈ above ∨ ((a = n ∨ a ∈ descendants n) ∧ x ∈ descendants a).
Proof.
  induction n as [s|s|name classes attrs children IH] using node_tree_ind;
    intros above x Hx; [by apply elem_of_nil in Hx|by apply elem_of_nil in Hx|].
  rewrite select_under_tag in Hx. rewrite descendants_tag.
  apply list_elem_of_bind in Hx as (c & Hx & Hc).
  rewrite Forall_forall in IH.
  apply elem_of_app in Hx as [Hx|Hx].
  - destruct (matches_compound last c && ancestors_match _ outer) eqn:Hm;
      [|by apply elem_of_nil in Hx].
    apply list_elem_of_singleton in Hx as ->.
    apply andb_true_iff in Hm as [Hm1 Hm2].
    assert (c ∈ children ≫= (fun c => c :: descendants c)) as Hin.
    { apply list_elem_of_bind. exists c. split; [left|done]. }
    split; [done|]. split; [done|].
    eexists. split; [exact Hm2|].
    intros a [->|Ha]%elem_of_cons; [|by left].
    right. split; [by left|]. by rewrite descendants_tag.
  - destruct (IH c Hc _ x Hx) as (Hm & Hdesc & chain & Hchain & Hmem).
    assert (∀ y, y = c ∨ y ∈ descendants c →
                 y ∈ children ≫= (fun c => c :: descendants c)) as Hbelow.
    { intros y Hy. apply list_elem_of_bind. exists c. split; [|done].
      destruct Hy as [->|Hy]; [left|by right]. }
    split; [done|]. split; [apply Hbelow; by right|].
    exists chain. split; [done|].
    intros a Ha. destruct (Hmem a Ha) as [[->|Ha']%elem_of_cons|[Ha' Hxa]].
    + right. split; [by left|]. rewrite descendants_tag. apply Hbelow. by right.
    + by left.
    + right. split; [|done]. right. by apply Hbelow.
Qed.

(** C8 (amended): where [parse_listing_for_items] returns, its items are, in
    document order, the candidates of the results table with their
    references resolved against the base URL: one item per [tr] element below
    the table body that has at least five [td] elements below it, a first
    such cell whose trimmed text is not empty, and an anchor with an [href]
    below the last such cell; and only such lists are returned.  A page
    without the results table has no item. *)
Theorem parse_listing_for_items_rows (env : Env) (html : string)
    (items : list (string * string)) :
  parse_listing_for_items env html = Ok items ↔
  match select_one sel_results_tbody (BeautifulSoup env html) with
  | None => items = []
  | Some tbody => Forall2 (resolved env) (candidates env tbody) items
  end.
Proof.
  rewrite parse_listing_for_items_eq.
  destruct (select_one sel_results_tbody (BeautifulSoup env html)) as [tbody|].
  - rewrite traverse_Ok.
    split; intros H; (eapply Forall2_impl; [exact H|]); intros c i; apply resolve_Ok.
  - split; [by intros [= <-]|by intros ->].
Qed.

(** A row of five cells with a link gives its item; a row of four cells and a
    row with an empty first cell give none, and a page without the table
    gives none. *)
Lemma parse_listing_for_items_rows_witness :
  let short_row := Tag "tr" [] [] [cell [Text "REG-0"]; cell []; cell [];
                                   view_cell "/home/Result?drugId=0"] in
  let rows := [short_row;
               listing_row "  " "/home/Result?drugId=9";
               listing_row "REG-1" "/home/Result?drugId=1"] in
  let env := stub_env (scripted [] 200) (RobotsLines [])
               (fun _ => listing_document rows) in
  parse_listing_for_items env "<html>"
  = Ok [("REG-1", "https://example.com/home/Result?drugId=1")]
  ∧ parse_listing_for_items (stub_env (scripted [] 200) (RobotsLines [])
                               (fun _ => no_document)) "<html>" = Ok [].
Proof.
  intros short_row rows env. split.
  - apply (proj2 (parse_listing_for_items_rows env "<html>" _)).
    repeat constructor.
  - apply (proj2 (parse_listing_for_items_rows _ "<html>" _)). reflexivity.
Defined.

(** C8 as stated fails on a row that holds a nested table: the row has four
    cells of its own, so the specification skips it; the code counts the cell
    of the nested table as the fifth and takes the link from it. *)
Lemma parse_listing_for_items_counts_nested_cells :
  child_tags "td" nested_row
  = [cell [Text "REG-1"]; cell []; cell [];
     cell [Tag "table" [] [] [Tag "tr" [] [] [view_cell "/home/Result?drugId=1"]]]]
  ∧ extract_items nested_table_env "<html>" = Ok []
  ∧ parse_listing_for_items nested_table_env "<html>"
    = Ok [("REG-1", "https://example.com/home/Result?drugId=1")]
  ∧ parse_listing_for_items nested_table_env "<html>"
    ≠ extract_items nested_table_env "<html>".
Proof. split; [reflexivity|]. split; [reflexivity|]. split; [reflexivity|discriminate]. Qed.

(** On a table without nesting the two readings agree: the example of the
    specification. *)
Example extract_items_example :
  extract_items two_item_env "<table>"
  = Ok [("REG-1", "https://example.com/home/Result?drugId=1");
        ("REG-2", "https://example.com/home/Result?drugId=2")]
  ∧ parse_listing_for_items two_item_env "<table>" = extract_items two_item_env "<table>".
Proof. split; reflexivity. Qed.

Lemma head_short {A : Type} (l : list A) : (length l ≤ 1)%nat → option_list (head l) = l.
Proof. destruct l as [|x [|y l]]; simpl; [done|done|lia]. Qed.

(** C9 (amended): for a pagination control with at most one [span], the
    detected upper bound is the greatest of the numbers read from the numeric
    labels of the anchors that carry an [href] and of the [span]; there is
    none when the control is missing or shows no such label.  The statement
    covers every run in which [find_last_page_number] returns. *)
Theorem find_last_page_number_max (env : Env) (html : string) :
  (select_one sel_ul_pagination (BeautifulSoup env html) = None →
   find_last_page_number env html = Ok None)
  ∧ (∀ ul,
       select_one sel_ul_pagination (BeautifulSoup env html) = Some ul →
       (length (find_all "span" ul) ≤ 1)%nat →
       (∀ m, find_last_page_number env html = Ok (Some m) ↔
             ∃ nums, read_as env (linked_labels env ul) nums
                     ∧ m ∈ nums ∧ ∀ k, k ∈ nums → k ≤ m)
       ∧ (find_last_page_number env html = Ok None ↔ linked_labels env ul = [])).
Proof.
  rewrite find_last_page_number_eq. split; [by intros ->|].
  intros ul -> Hspan. unfold find_first. rewrite head_short by done.
  fold (linked_labels env ul).
  destruct (traverse (int env) (linked_labels env ul)) as [nums|] eqn:Hread.
  - apply traverse_Ok in Hread. fold (read_as env (linked_labels env ul) nums) in Hread.
    assert (Huniq : ∀ nums', read_as env (linked_labels env ul) nums' → nums' = nums).
    { intros nums' H'. apply traverse_Ok in H'. apply traverse_Ok in Hread. congruence. }
    split.
    + intros m. split.
      * intros [= H]. apply max_or_none_Some in H. by exists nums.
      * intros (nums' & H' & Hmax). apply Huniq in H' as ->.
        f_equal. by apply max_or_none_Some.
    + split.
      * intros [= H]. apply max_or_none_None in H as ->.
        by apply Forall2_nil_inv_r in Hread.
      * intros Hnone. rewrite Hnone in Hread. apply Forall2_nil_inv_l in Hread as ->. done.
  - split.
    + intros m. split; [done|].
      intros (nums & H' & _). apply traverse_Ok in H'. congruence.
    + split; [done|]. intros Hnone. by rewrite Hnone in Hread.
Qed.

(** Anchors 1, 2 and 3 with the current page 2 as text: the bound is 3; and
    a control without a numeric label gives none. *)
Lemma find_last_page_number_max_witness :
  find_last_page_number three_pages_env "<html>" = Ok (Some 3)
  ∧ find_last_page_number
      (stub_env (scripted [] 200) (RobotsLines [])
         (fun _ => pagination_document [page_link "next"; page_text "..."])) "<html>"
    = Ok None.
Proof.
  split.
  - eapply (proj2 (find_last_page_number_max three_pages_env "<html>"));
      [reflexivity|simpl; lia|].
    exists [1; 2; 3; 2]. split; [by repeat constructor|].
    split; [set_solver|]. intros k Hk.
    repeat (apply elem_of_cons in Hk as [->|Hk]; [lia|]). by apply elem_of_nil in Hk.
  - eapply (proj2 (find_last_page_number_max _ "<html>"));
      [reflexivity|simpl; lia|reflexivity].
Defined.

(** C9 as stated fails on an anchor without [href]: the link 1 is read, the
    label 9 of the bare anchor is not, and the detected bound is 1. *)
Lemma find_last_page_number_ignores_bare_anchor :
  find_last_page_number bare_anchor_env "<html>" = Ok (Some 1)
  ∧ detect_upper_bound bare_anchor_env "<html>" = Ok (Some 9)
  ∧ find_last_page_number bare_anchor_env "<html>"
    ≠ detect_upper_bound bare_anchor_env "<html>".
Proof. split; [reflexivity|]. split; [reflexivity|discriminate]. Qed.

(** * Further properties of the listing parser *)

(** X6: every item of a listing page comes from a row of the results table:
    its record id is not empty and is what [str.strip] returned for the text
    of the first cell below that row, and its detail address is what
    [urljoin] returned for the base URL and the [href] of the first anchor
    with an [href] below the last cell of the same row. *)
Theorem parse_listing_for_items_ids (env : Env) (html : string)
    (items : list (string * string)) (reg_no detail_url : string) :
  parse_listing_for_items env html = Ok items →
  (reg_no, detail_url) ∈ items →
  reg_no ≠ ""
  ∧ ∃ tbody tr first_cell last_cell anchor href,
      select_one sel_results_tbody (BeautifulSoup env html) = Some tbody
      ∧ tr ∈ find_all "tr" tbody
      ∧ (5 ≤ length (find_all "td" tr))%nat
      ∧ head (find_all "td" tr) = Some first_cell
      ∧ last (find_all "td" tr) = Some last_cell
      ∧ reg_no = strip env (get_text_strip env first_cell)
      ∧ head (find_all_with "a" "href" last_cell) = Some anchor
      ∧ attr_get "href" anchor = Some href
      ∧ urljoin env (BASE_URL env) href = Ok detail_url.
Proof.
  intros Hparse Hin. apply parse_listing_for_items_rows in Hparse.
  destruct (select_one sel_results_tbody (BeautifulSoup env html)) as [tbody|];
    [|subst; by apply elem_of_nil in Hin].
  apply list_elem_of_lookup in Hin as [i Hi].
  destruct (Forall2_lookup_r _ _ _ _ _ Hparse Hi) as ([id href] & Hcand & Hid & Hurl).
  simpl in Hid, Hurl. subst id.
  apply list_elem_of_lookup_2 in Hcand.
  apply list_elem_of_omap in Hcand as (tr & Htr & Hrow).
  apply row_below_Some in Hrow
    as (Hlen & Hne & first_cell & last_cell & anchor & H1 & H2 & H3 & H4 & H5).
  split; [done|].
  exists tbody, tr, first_cell, last_cell, anchor, href. done.
Qed.

(** The first row of the two-row listing. *)
Lemma parse_listing_for_items_ids_witness :
  let items := [("REG-1", "https://example.com/home/Result?drugId=1");
                ("REG-2", "https://example.com/home/Result?drugId=2")] in
  parse_listing_for_items two_item_env "<table>" = Ok items
  ∧ ("REG-1", "https://example.com/home/Result?drugId=1") ∈ items
  ∧ "REG-1" ≠ ""
  ∧ ∃ tbody tr first_cell last_cell anchor href,
      select_one sel_results_tbody (BeautifulSoup two_item_env "<table>") = Some tbody
      ∧ tr ∈ find_all "tr" tbody
      ∧ (5 ≤ length (find_all "td" tr))%nat
      ∧ head (find_all "td" tr) = Some first_cell
      ∧ last (find_all "td" tr) = Some last_cell
      ∧ "REG-1" = strip two_item_env (get_text_strip two_item_env first_cell)
      ∧ head (find_all_with "a" "href" last_cell) = Some anchor
      ∧ attr_get "href" anchor = Some href
      ∧ urljoin two_item_env (BASE_URL two_item_env) href
        = Ok "https://example.com/home/Result?drugId=1".
Proof.
  intros items.
  assert (H1 : parse_listing_for_items two_item_env "<table>" = Ok items) by reflexivity.
  assert (H2 : ("REG-1", "https://example.com/home/Result?drugId=1") ∈ items)
    by (apply list_elem_of_here).
  split; [exact H1|]. split; [exact H2|].
  exact (parse_listing_for_items_ids two_item_env "<table>" items "REG-1"
           "https://example.com/home/Result?drugId=1" H1 H2).
Defined.

(** X7: items are only taken from a [tbody] that lies inside a
    [div.table-responsive] and inside a [table.table.s-row] of the
    document. *)
Theorem parse_listing_for_items_region (env : Env) (html : string)
    (items : list (string * string)) (item : string * string) :
  parse_listing_for_items env html = Ok items →
  item ∈ items →
  ∃ tbody division table,
    select_one sel_results_tbody (BeautifulSoup env html) = Some tbody
    ∧ is_tag "tbody" tbody = true
    ∧ matches_compound (mkCompound "div" ["table-responsive"] []) division = true
    ∧ matches_compound (mkCompound "table" ["table"; "s-row"] []) table = true
    ∧ tbody ∈ descendants division ∧ tbody ∈ descendants table
    ∧ (division = BeautifulSoup env html ∨ division ∈ descendants (BeautifulSoup env html))
    ∧ (table = BeautifulSoup env html ∨ table ∈ descendants (BeautifulSoup env html)).
Proof.
  unfold parse_listing_for_items.
  destruct (select_one sel_results_tbody (BeautifulSoup env html)) as [tbody|] eqn:Hsel;
    [|intros [= <-]; by intros ?%elem_of_nil].
  intros _ _. unfold select_one, select in Hsel. simpl in Hsel.
  apply head_Some_elem_of in Hsel.
  apply select_under_sound in Hsel as (Hm & _ & chain & Hchain & Hmem).
  destruct (ancestors_match_witness chain _ Hchain
              (mkCompound "div" ["table-responsive"] [])) as (d & Hd & Hmd);
    [right; left|].
  destruct (ancestors_match_witness chain _ Hchain
              (mkCompound "table" ["table"; "s-row"] [])) as (t & Ht & Hmt);
    [left|].
  destruct (Hmem d Hd) as [?%elem_of_nil|[Hd1 Hd2]]; [done|].
  destruct (Hmem t Ht) as [?%elem_of_nil|[Ht1 Ht2]]; [done|].
  exists tbody, d, t. split; [done|]. split.
  { destruct tbody as [s|s|name classes attrs children]; try done.
    simpl in Hm. by rewrite !andb_true_r in Hm. }
  done.
Qed.

(** The first item of the two-row listing: its [tbody] is inside the
    division and the table of the fixture. *)
Lemma parse_listing_for_items_region_witness :
  let items := [("REG-1", "https://example.com/home/Result?drugId=1");
                ("REG-2", "https://example.com/home/Result?drugId=2")] in
  parse_listing_for_items two_item_env "<table>" = Ok items
  ∧ ("REG-1", "https://example.com/home/Result?drugId=1") ∈ items
  ∧ ∃ tbody division table,
      select_one sel_results_tbody (BeautifulSoup two_item_env "<table>") = Some tbody
      ∧ is_tag "tbody" tbody = true
      ∧ matches_compound (mkCompound "div" ["table-responsive"] []) division = true
      ∧ matches_compound (mkCompound "table" ["table"; "s-row"] []) table = true
      ∧ tbody ∈ descendants division ∧ tbody ∈ descendants table
      ∧ (division = BeautifulSoup two_item_env "<table>"
         ∨ division ∈ descendants (BeautifulSoup two_item_env "<table>"))
      ∧ (table = BeautifulSoup two_item_env "<table>"
         ∨ table ∈ descendants (BeautifulSoup two_item_env "<table>")).
Proof.
  intros items.
  assert (H1 : parse_listing_for_items two_item_env "<table>" = Ok items) by reflexivity.
  assert (H2 : ("REG-1", "https://example.com/home/Result?drugId=1") ∈ items)
    by (apply list_elem_of_here).
  split; [exact H1|]. split; [exact H2|].
  exact (parse_listing_for_items_region two_item_env "<table>" items _ H1 H2).
Defined.

(** X21: [parse_listing_for_items] raises exactly when the results table has
    a row that makes an item and whose reference [urljoin] cannot join to
    the base URL; the rows it passes over never make it raise. *)
Theorem parse_listing_for_items_raises (env : Env) (html : string) :
  parse_listing_for_items env html = ValueError ↔
  ∃ tbody candidate,
    select_one sel_results_tbody (BeautifulSoup env html) = Some tbody
    ∧ candidate ∈ candidates env tbody
    ∧ urljoin env (BASE_URL env) (snd candidate) = ValueError.
Proof.
  rewrite parse_listing_for_items_eq.
  destruct (select_one sel_results_tbody (BeautifulSoup env html)) as [tbody|].
  - rewrite traverse_ValueError. split.
    + intros (c & Hc & Hraise). exists tbody, c. split; [done|]. split; [done|].
      unfold resolve in Hraise. by destruct (urljoin env (BASE_URL env) (snd c)).
    + intros (tbody' & c & [= <-] & Hc & Hraise). exists c. split; [done|].
      unfold resolve. by rewrite Hraise.
  - split; [done|]. by intros (tbody & c & ? & _).
Qed.

(** The listing whose second row links to ["//["]. *)
Lemma parse_listing_for_items_raises_witness :
  parse_listing_for_items broken_link_env "<table>" = ValueError
  ∧ parse_listing_for_items two_item_env "<table>" ≠ ValueError.
Proof.
  split.
  - apply (proj2 (parse_listing_for_items_raises broken_link_env "<table>")).
    eexists _, ("REG-2", "//["). split; [reflexivity|]. split; [|reflexivity].
    right. left.
  - discriminate.
Defined.

(** X22: of the [span] elements of the pagination control only the first is
    read.  When its label is not numeric, the result is the greatest of the
    numbers read from the anchors with an [href] alone, whatever the later
    [span] elements hold. *)
Theorem find_last_page_number_first_span (env : Env) (html : string) (ul sp : node) :
  select_one sel_ul_pagination (BeautifulSoup env html) = Some ul →
  find_first "span" ul = Some sp →
  isdigit env (get_text_strip env sp) = false →
  find_last_page_number env html
  = match traverse (int env) (numeric_labels env (find_all_with "a" "href" ul)) with
    | Ok nums => Ok (max_or_none nums)
    | ValueError => ValueError
    end.
Proof.
  intros Hul Hsp Hlabel. rewrite find_last_page_number_eq, Hul, Hsp.
  unfold numeric_labels at 2. simpl. rewrite Hlabel. simpl. by rewrite app_nil_r.
Qed.

(** Links 1 and 8 around an ellipsis, and the current page 9 as text after
    it: the first [span] is the ellipsis, and the bound is 8. *)
Lemma find_last_page_number_first_span_witness :
  let ul := Tag "ul" ["pagination"] []
              [page_link "1"; page_text "..."; page_link "8"; page_text "9"] in
  select_one sel_ul_pagination (BeautifulSoup ellipsis_env "<html>") = Some ul
  ∧ find_first "span" ul = Some (Tag "span" [] [] [Text "..."])
  ∧ isdigit ellipsis_env (get_text_strip ellipsis_env (Tag "span" [] [] [Text "..."])) = false
  ∧ find_all "span" ul = [Tag "span" [] [] [Text "..."]; Tag "span" [] [] [Text "9"]]
  ∧ find_last_page_number ellipsis_env "<html>" = Ok (Some 8).
Proof.
  intros ul.
  assert (H1 : select_one sel_ul_pagination (BeautifulSoup ellipsis_env "<html>") = Some ul)
    by reflexivity.
  assert (H2 : find_first "span" ul = Some (Tag "span" [] [] [Text "..."])) by reflexivity.
  assert (H3 : isdigit ellipsis_env
                 (get_text_strip ellipsis_env (Tag "span" [] [] [Text "..."])) = false)
    by reflexivity.
  split; [exact H1|]. split; [exact H2|]. split; [exact H3|]. split; [reflexivity|].
  rewrite (find_last_page_number_first_span ellipsis_env "<html>" ul _ H1 H2 H3).
  reflexivity.
Defined.

(** * Range runner *)


Lemma increasing_seqZ m n : increasing (seqZ m n).
Proof.
  unfold increasing. remember (Z.to_nat n) as k eqn:Hk.
  revert m n Hk. induction k as [|k IH]; intros m n Hk.
  - rewrite seqZ_nil by lia. constructor.
  - rewrite seqZ_cons by lia. apply StronglySorted_cons. split.
    + apply Forall_seqZ. lia.
    + apply IH. lia.
Qed.

Lemma increasing_range a b : increasing (range a b).
Proof. apply increasing_seqZ. Qed.

Lemma increasing_cons_range a b : increasing (a :: range (a + 1) b).
Proof.
  apply StronglySorted_cons. split; [|apply increasing_range].
  apply Forall_seqZ. lia.
Qed.

Lemma count_fails_app c l1 l2 :
  count_fails c (l1 ++ l2) = count_fails (count_fails c l1) l2.
Proof. apply foldl_app. Qed.


Lemma count_fails_snoc c l (ok : bool) :
  count_fails c (l ++ [ok]) = if ok then 0 else count_fails c l + 1.
Proof. by rewrite count_fails_app. Qed.

Lemma count_fails_nonneg l : ∀ c, 0 ≤ c → 0 ≤ count_fails c l.
Proof.
  induction l as [|ok l IH]; intros c Hc; [done|]. simpl.
  destruct ok; apply IH; lia.
Qed.

(** A counter of [k] means that the last [k] results are failures and that
    the result before them, if any, is a success. *)
Lemma count_fails_trailing l :
  ∃ pre, l = pre ++ replicate (Z.to_nat (count_fails 0 l)) false
         ∧ (pre = [] ∨ last pre = Some true).
Proof.
  induction l as [|ok l (pre & Hl & Hpre)] using rev_ind.
  - exists []. split; [done|by left].
  - rewrite count_fails_snoc. destruct ok.
    + exists (l ++ [true]). simpl. rewrite app_nil_r. split; [done|].
      right. by rewrite last_snoc.
    + exists pre. split; [|done].
      pose proof (count_fails_nonneg l 0) as Hnn.
      replace (Z.to_nat (count_fails 0 l + 1)) with (S (Z.to_nat (count_fails 0 l)))
        by lia.
      rewrite replicate_S_end, app_assoc. by rewrite <- Hl.
Qed.

Lemma count_fails_successes c l :
  Forall (fun ok => ok = true) l → count_fails c l = c ∨ count_fails c l = 0.
Proof.
  revert c. induction l as [|ok l IH]; intros c Hall; [by left|].
  apply Forall_cons in Hall as [-> Hall]. simpl.
  destruct (IH 0 Hall) as [->| ->]; by right.
Qed.

Section Loop.

Context (processor : RobotFileParser → string → Z → M (result bool)).
Context (rp : RobotFileParser) (ua : string).

Lemma page_loop_cons page rest c called w :
  page_loop processor rp ua (page :: rest) c called w
  = if bool_decide (is_Some (files w !! page))
    then page_loop processor rp ua rest c called w
    else
      match processor rp ua page w with
      | (Ok true, w1) => page_loop processor rp ua rest 0 (called ++ [(page, true)]) w1
      | (Ok false, w1) =>
          if STOP_ON_CONSECUTIVE_LIST_FAILS <=? c + 1
          then (mkExit (c + 1) (called ++ [(page, false)]) Completed, w1)
          else page_loop processor rp ua rest (c + 1) (called ++ [(page, false)]) w1
      | (ValueError, w1) => (mkExit c called (RaisedInPage page), w1)
      end.
Proof.
  simpl. unfold bind, file_exists. destruct (bool_decide _); [done|].
  destruct (processor rp ua page w) as [[[]|] w1]; simpl; try done.
  by destruct (_ <=? _).
Qed.

(** The list of calls is only extended. *)
Lemma page_loop_called pages : ∀ c called w,
  page_loop processor rp ua pages c called w
  = let r := page_loop processor rp ua pages c [] w in
    (mkExit (exit_fails (fst r)) (called ++ exit_calls (fst r)) (exit_how (fst r)), snd r).
Proof.
  induction pages as [|page rest IH]; intros c called w.
  - simpl. unfold ret. simpl. by rewrite app_nil_r.
  - rewrite !page_loop_cons.
    destruct (bool_decide _); [apply IH|].
    destruct (processor rp ua page w) as [[[]|] w1].
    + rewrite (IH 0 (called ++ _)), (IH 0 ([] ++ _)). simpl. by rewrite <- app_assoc.
    + destruct (_ <=? _); [done|].
      rewrite (IH _ (called ++ _)), (IH _ ([] ++ _)). simpl. by rewrite <- app_assoc.
    + simpl. by rewrite app_nil_r.
Qed.

(** The loop refines the relation of the specification: every booked call
    is a call of the processor, in the world the calls before it left, and the
    counter follows its results. *)
Lemma page_loop_steps pages : ∀ c w,
  let r := page_loop processor rp ua pages c [] w in
  page_steps processor rp ua pages c w
    (exit_calls (fst r)) (exit_fails (fst r)) (exit_how (fst r)) (snd r).
Proof.
  induction pages as [|page rest IH]; intros c w; [constructor|].
  cbv zeta. rewrite page_loop_cons.
  destruct (bool_decide (is_Some (files w !! page))) eqn:Hpresent.
  { apply bool_decide_eq_true in Hpresent. apply steps_saved; [done|apply IH]. }
  apply bool_decide_eq_false in Hpresent. apply eq_None_not_Some in Hpresent.
  destruct (processor rp ua page w) as [[[]|] w1] eqn:Hcall.
  - rewrite page_loop_called. simpl. eapply steps_success; [done|exact Hcall|apply IH].
  - destruct (STOP_ON_CONSECUTIVE_LIST_FAILS <=? c + 1) eqn:Hstop.
    + apply Z.leb_le in Hstop. simpl. by eapply steps_stop.
    + apply Z.leb_gt in Hstop. rewrite page_loop_called. simpl.
      eapply steps_failure; [done|exact Hcall|done|apply IH].
  - simpl. by eapply steps_raised.
Qed.


(** The counter follows the results of the calls, the calls go through the
    pages in order, no call is made once the counter is at the threshold, and
    a loop that an exception ends has its counter below the threshold. *)
Lemma page_loop_counter pages : ∀ c w,
  c < STOP_ON_CONSECUTIVE_LIST_FAILS →
  let r := page_loop processor rp ua pages c [] w in
  exit_fails (fst r) = count_fails c (snd <$> exit_calls (fst r))
  ∧ (fst <$> exit_calls (fst r)) `sublist_of` pages
  ∧ (∀ k, (k < length (exit_calls (fst r)))%nat →
          count_fails c (take k (snd <$> exit_calls (fst r)))
          < STOP_ON_CONSECUTIVE_LIST_FAILS)
  ∧ (exit_how (fst r) ≠ Completed → exit_fails (fst r) < STOP_ON_CONSECUTIVE_LIST_FAILS).
Proof.
  induction pages as [|page rest IH]; intros c w Hc.
  - simpl. split; [done|]. split; [done|]. split; [|done]. intros k Hk. simpl in Hk. lia.
  - intros r. subst r. rewrite page_loop_cons.
    destruct (bool_decide _).
    { destruct (IH c w Hc) as (H1 & H2 & H3 & H4). split; [done|].
      split; [by apply sublist_cons|done]. }
    destruct (processor rp ua page w) as [[[]|] w1].
    + rewrite page_loop_called. simpl.
      destruct (IH 0 w1) as (H1 & H2 & H3 & H4); [done|].
      split; [done|]. split; [by apply sublist_skip|]. split; [|done].
      intros [|k] Hk; simpl; [done|]. apply H3. simpl in Hk. lia.
    + destruct (STOP_ON_CONSECUTIVE_LIST_FAILS <=? c + 1) eqn:Hstop.
      * simpl. split; [done|]. split; [apply sublist_skip, sublist_nil_l|].
        split; [|done]. intros [|k] Hk; simpl in *; [done|lia].
      * apply Z.leb_gt in Hstop. rewrite page_loop_called. simpl.
        destruct (IH (c + 1) w1 Hstop) as (H1 & H2 & H3 & H4).
        split; [done|]. split; [by apply sublist_skip|]. split; [|done].
        intros [|k] Hk; simpl; [done|]. apply H3. simpl in Hk. lia.
    + simpl. split; [done|]. split; [apply sublist_nil_l|]. split; [|done].
      intros k Hk. lia.
Qed.

(** With a processor that keeps to its own file, a page that is saved
    stays as it is and is never passed to the processor. *)
Lemma page_loop_checkpoint pages : ∀ c w q m,
  processor_frame processor →
  files w !! q = Some m →
  let r := page_loop processor rp ua pages c [] w in
  files (snd r) !! q = Some m
  ∧ (q ∉ (fst <$> exit_calls (fst r)))
  ∧ exit_how (fst r) ≠ RaisedInPage q.
Proof.
  induction pages as [|page rest IH]; intros c w q m Hframe Hq.
  - simpl. split; [done|]. split; [apply not_elem_of_nil|done].
  - intros r. subst r. rewrite page_loop_cons.
    destruct (bool_decide (is_Some (files w !! page))) eqn:Hpresent; [by apply IH|].
    apply bool_decide_eq_false in Hpresent.
    assert (q ≠ page) as Hne.
    { intros ->. apply Hpresent. by rewrite Hq. }
    pose proof (Hframe rp ua page w q Hne) as Hkeep.
    destruct (processor rp ua page w) as [[[]|] w1]; simpl in Hkeep.
    + rewrite page_loop_called. simpl.
      destruct (IH 0 w1 q m Hframe) as (H1 & H2 & H3); [by rewrite Hkeep|].
      split; [done|]. split; [|done]. by apply not_elem_of_cons.
    + destruct (_ <=? _).
      * simpl. split; [by rewrite Hkeep|]. split; [|done].
        apply not_elem_of_cons. split; [done|]. apply not_elem_of_nil.
      * rewrite page_loop_called. simpl.
        destruct (IH (c + 1) w1 q m Hframe) as (H1 & H2 & H3); [by rewrite Hkeep|].
        split; [done|]. split; [|done]. by apply not_elem_of_cons.
    + simpl. split; [by rewrite Hkeep|]. split; [apply not_elem_of_nil|congruence].
Qed.


Lemma page_loop_all_saved pages : ∀ c called w,
  (∀ p, p ∈ pages → is_Some (files w !! p)) →
  page_loop processor rp ua pages c called w = (mkExit c called Completed, w).
Proof.
  induction pages as [|page rest IH]; intros c called w Hall; [done|].
  rewrite page_loop_cons, bool_decide_eq_true_2 by (apply Hall; left).
  apply IH. intros p Hp. apply Hall. by right.
Qed.

(** With a processor that writes its own file only and saves it when it
    returns [true], a page loop that ran to its end and was not stopped
    leaves every page of its list either saved or with a failed call. *)
Lemma page_loop_complete pages : ∀ c w,
  processor_frame processor →
  processor_saves processor →
  let r := page_loop processor rp ua pages c [] w in
  exit_how (fst r) = Completed →
  exit_fails (fst r) < STOP_ON_CONSECUTIVE_LIST_FAILS →
  ∀ p, p ∈ pages →
    is_Some (files (snd r) !! p) ∨ (p, false) ∈ exit_calls (fst r).
Proof.
  induction pages as [|page rest IH]; intros c w Hframe Hsaves r Hhow Hc p Hp;
    [by apply elem_of_nil in Hp|].
  subst r. rewrite page_loop_cons in *.
  destruct (bool_decide (is_Some (files w !! page))) eqn:Hpresent.
  { apply elem_of_cons in Hp as [->|Hp]; [|by apply IH].
    apply bool_decide_eq_true in Hpresent as [m Hm]. left.
    destruct (page_loop_checkpoint rest c w page m Hframe Hm) as [Hk _].
    by eexists. }
  pose proof (Hsaves rp ua page w) as Hsaved.
  destruct (processor rp ua page w) as [[[]|] w1]; simpl in Hsaved.
  - rewrite page_loop_called in *. simpl in *.
    apply elem_of_cons in Hp as [->|Hp].
    + left. destruct Hsaved as [m Hm]; [done|].
      destruct (page_loop_checkpoint rest 0 w1 page m Hframe Hm) as [Hk _].
      by eexists.
    + destruct (IH 0 w1 Hframe Hsaves Hhow Hc p Hp) as [|Hfailed]; [by left|].
      right. by right.
  - destruct (STOP_ON_CONSECUTIVE_LIST_FAILS <=? c + 1) eqn:Hstop.
    + simpl in Hc. apply Z.leb_le in Hstop. lia.
    + rewrite page_loop_called in *. simpl in *.
      apply elem_of_cons in Hp as [->|Hp]; [right; left|].
      destruct (IH (c + 1) w1 Hframe Hsaves Hhow Hc p Hp) as [|Hfailed]; [by left|].
      right. by right.
  - done.
Qed.

End Loop.

Section Run.

Context (env : Env) (processor : RobotFileParser → string → Z → M (result bool)).

(** A run whose load raises ends with that exception, before anything
    else. *)
Lemma run_range_with_load_raised start_page end_page w w0 :
  init_robots_parser env (BASE_URL env) w = (ValueError, w0) →
  run_range_with env processor start_page end_page w = (mkReport [] None RaisedInLoad, w0).
Proof. intros Hinit. unfold run_range_with, bind. by rewrite Hinit. Qed.

(** A run whose policy denies one of the two paths returns at once. *)
Lemma run_range_gate_denied_any start_page end_page w rp w0 :
  init_robots_parser env (BASE_URL env) w = (Ok rp, w0) →
  can_fetch env rp (user_agent env) "/home/DrugSearch" = false
  ∨ can_fetch env rp (user_agent env) "/home/Result" = false →
  run_range_with env processor start_page end_page w = (mkReport [] None Completed, w0).
Proof.
  intros Hinit Hdeny. unfold run_range_with, bind. rewrite Hinit.
  destruct (can_fetch env rp (user_agent env) "/home/DrugSearch"); simpl; [|done].
  destruct Hdeny as [Hdeny|Hdeny]; [done|]. by rewrite Hdeny.
Qed.

(** A run with an end page, past the two policy checks, is the page loop over
    the range. *)
Lemma run_range_with_explicit start_page end_page w rp w0 :
  init_robots_parser env (BASE_URL env) w = (Ok rp, w0) →
  can_fetch env rp (user_agent env) "/home/DrugSearch" = true →
  can_fetch env rp (user_agent env) "/home/Result" = true →
  run_range_with env processor start_page (Some end_page) w
  = let loop := page_loop processor rp (user_agent env)
                  (range start_page (end_page + 1)) 0 [] w0 in
    (finish (fst loop), snd loop).
Proof.
  intros Hinit H1 H2. unfold run_range_with, bind. rewrite Hinit, H1, H2. simpl.
  by destruct (page_loop processor rp (user_agent env) _ 0 [] w0).
Qed.

(** A run without an end page whose detection fetch fails returns after
    it. *)
Lemma run_range_with_auto_failed start_page w rp w0 :
  init_robots_parser env (BASE_URL env) w = (Ok rp, w0) →
  can_fetch env rp (user_agent env) "/home/DrugSearch" = true →
  can_fetch env rp (user_agent env) "/home/Result" = true →
  absent_or_not_200 (fst (polite_get env (list_url env start_page) MAX_LIST_RETRIES w0)) →
  run_range_with env processor start_page None w
  = (mkReport [] None Completed,
     snd (polite_get env (list_url env start_page) MAX_LIST_RETRIES w0)).
Proof.
  intros Hinit H1 H2 Hfail. apply failed_response_iff in Hfail.
  unfold run_range_with, bind. rewrite Hinit, H1, H2. cbn [negb].
  destruct (polite_get env (list_url env start_page) MAX_LIST_RETRIES w0) as [[r|] w1];
    [|done].
  cbn [fst snd] in *. by rewrite Hfail.
Qed.

(** A run without an end page in which [find_last_page_number] raises ends
    with that exception, right after the detection fetch. *)
Lemma run_range_with_auto_raised start_page w rp w0 r w1 :
  init_robots_parser env (BASE_URL env) w = (Ok rp, w0) →
  can_fetch env rp (user_agent env) "/home/DrugSearch" = true →
  can_fetch env rp (user_agent env) "/home/Result" = true →
  polite_get env (list_url env start_page) MAX_LIST_RETRIES w0 = (Some r, w1) →
  status_code r = 200 →
  find_last_page_number env (text r) = ValueError →
  run_range_with env processor start_page None w = (mkReport [] None RaisedInDetection, w1).
Proof.
  intros Hinit H1 H2 Hget Hstatus Hraise.
  assert (failed_response (Some r) = false) as Hok.
  { destruct (failed_response (Some r)) eqn:E; [|done].
    by apply failed_response_iff in E. }
  unfold run_range_with, bind. rewrite Hinit, H1, H2. cbn [negb].
  by rewrite Hget, Hok, Hraise.
Qed.

(** A run without an end page, past the two policy checks, a detection
    fetch with status 200 and a detection that returned, is the page loop over
    the start page and the pages after it up to the detected end, from the
    world the detection left. *)
Lemma run_range_with_auto start_page w rp w0 r w1 last :
  init_robots_parser env (BASE_URL env) w = (Ok rp, w0) →
  can_fetch env rp (user_agent env) "/home/DrugSearch" = true →
  can_fetch env rp (user_agent env) "/home/Result" = true →
  polite_get env (list_url env start_page) MAX_LIST_RETRIES w0 = (Some r, w1) →
  status_code r = 200 →
  find_last_page_number env (text r) = Ok last →
  run_range_with env processor start_page None w
  = let loop := page_loop processor rp (user_agent env)
                  (start_page :: range (start_page + 1)
                                   (detected_end start_page last + 1)) 0 [] w1 in
    (finish (fst loop), snd loop).
Proof.
  intros Hinit H1 H2 Hget Hstatus Hlast.
  assert (failed_response (Some r) = false) as Hok.
  { destruct (failed_response (Some r)) eqn:E; [|done].
    by apply failed_response_iff in E. }
  rewrite page_loop_cons.
  unfold run_range_with, bind. rewrite Hinit, H1, H2. cbn [negb].
  rewrite Hget, Hok, Hlast. fold (detected_end start_page last). unfold file_exists.
  destruct (bool_decide (is_Some (files w1 !! start_page))); simpl.
  - by destruct (page_loop processor rp (user_agent env) _ 0 [] w1).
  - destruct (processor rp (user_agent env) start_page w1) as [[[]|] w2]; simpl.
    + by destruct (page_loop processor rp (user_agent env) _ 0 _ w2).
    + by destruct (page_loop processor rp (user_agent env) _ (0 + 1) _ w2).
    + done.
Qed.

(** A run either ends before the page loop, leaving the output directory
    alone, or is the page loop over an increasing list of pages, started with
    a counter of 0: the given range, or, after a detection, the start page
    followed by the pages up to the detected bound. *)
Lemma run_range_with_shape start_page end_page w :
  let run := run_range_with env processor start_page end_page w in
  (∃ e, fst run = mkReport [] None e ∧ (∀ p, e ≠ RaisedInPage p)
        ∧ files (snd run) = files w)
  ∨ ∃ rp w0 pages w1,
      init_robots_parser env (BASE_URL env) w = (Ok rp, w0)
      ∧ increasing pages ∧ files w1 = files w
      ∧ (∀ e, end_page = Some e → pages = range start_page (e + 1))
      ∧ run = (finish (fst (page_loop processor rp (user_agent env) pages 0 [] w1)),
               snd (page_loop processor rp (user_agent env) pages 0 [] w1)).
Proof.
  cbv zeta.
  pose proof (init_robots_parser_files env (BASE_URL env) w) as Hw0.
  destruct (init_robots_parser env (BASE_URL env) w) as [[rp|] w0] eqn:Hinit;
    simpl in Hw0.
  2:{ left. exists RaisedInLoad.
      rewrite (run_range_with_load_raised _ _ _ _ Hinit). done. }
  destruct (can_fetch env rp (user_agent env) "/home/DrugSearch") eqn:H1.
  2:{ left. exists Completed.
      rewrite (run_range_gate_denied_any _ _ _ _ _ Hinit) by (by left). done. }
  destruct (can_fetch env rp (user_agent env) "/home/Result") eqn:H2.
  2:{ left. exists Completed.
      rewrite (run_range_gate_denied_any _ _ _ _ _ Hinit) by (by right). done. }
  destruct end_page as [end_page|].
  - right. exists rp, w0, (range start_page (end_page + 1)), w0.
    split; [done|]. split; [apply increasing_range|]. split; [done|].
    split; [by intros e [= <-]|].
    by rewrite (run_range_with_explicit _ _ _ _ _ Hinit H1 H2).
  - pose proof (polite_get_files env (list_url env start_page) MAX_LIST_RETRIES w0) as Hf.
    destruct (polite_get env (list_url env start_page) MAX_LIST_RETRIES w0)
      as [resp w1] eqn:Hget.
    simpl in Hf.
    destruct (failed_response resp) eqn:Hfail.
    { left. exists Completed. apply failed_response_iff in Hfail.
      rewrite (run_range_with_auto_failed _ _ _ _ Hinit H1 H2) by (by rewrite Hget).
      rewrite Hget. simpl. by rewrite Hf, Hw0. }
    destruct resp as [r|]; [|done].
    apply failed_response_false in Hfail as Hstatus.
    destruct (find_last_page_number env (text r)) as [last|] eqn:Hlast.
    + right.
      exists rp, w0, (start_page :: range (start_page + 1)
                                      (detected_end start_page last + 1)), w1.
      split; [done|]. split; [apply increasing_cons_range|].
      split; [by rewrite Hf, Hw0|]. split; [done|].
      by rewrite (run_range_with_auto _ _ _ _ _ _ _ Hinit H1 H2 Hget Hstatus Hlast).
    + left. exists RaisedInDetection.
      rewrite (run_range_with_auto_raised _ _ _ _ _ _ Hinit H1 H2 Hget Hstatus Hlast).
      simpl. by rewrite Hf, Hw0.
Qed.

End Run.

(** With a processor that keeps to its own file, a run leaves every saved
    page as it was and never passes it to the processor. *)
Lemma run_range_with_keeps_saved env processor start_page end_page w q m :
  processor_frame processor →
  files w !! q = Some m →
  let run := run_range_with env processor start_page end_page w in
  files (snd run) !! q = Some m
  ∧ (q ∉ (fst <$> calls (fst run)))
  ∧ ended (fst run) ≠ RaisedInPage q.
Proof.
  intros Hframe Hq run. subst run.
  destruct (run_range_with_shape env processor start_page end_page w)
    as [(e & Hrep & He & Hfiles)|(rp & w0 & pages & w1 & _ & Hinc & Hfiles & _ & ->)].
  - rewrite Hrep, Hfiles. split; [done|]. split; [apply not_elem_of_nil|apply He].
  - simpl. apply page_loop_checkpoint; [done|]. by rewrite Hfiles.
Qed.



(** The counter is reset by a success: on the two-item site page 1 is
    saved and page 2 fails, on a site without pages every page fails. *)
Example run_range_counter_example :
  fst (run_range two_item_env 1 (Some 2) empty_world)
  = mkReport [(1, true); (2, false)] (Some 1) Completed
  ∧ fst (run_range (stub_env (site [] 404) (RobotsLines []) (fun _ => no_document))
           1 (Some 10) empty_world)
    = mkReport [(1, false); (2, false); (3, false); (4, false); (5, false)]
        (Some 5) Completed.
Proof. split; vm_compute; reflexivity. Qed.

(** C2 (amended): a page whose output file exists when the run starts is
    never passed to the page processor, and its file is left as it was; the
    page loop goes over such a page without any effect on the world. *)
Theorem run_range_checkpoint (env : Env) (start_page : Z) (end_page : option Z)
    (w : world) (N : Z) (m : gmap string string) :
  files w !! N = Some m →
  let run := run_range env start_page end_page w in
  (N ∉ (fst <$> calls (fst run)))
  ∧ ended (fst run) ≠ RaisedInPage N
  ∧ files (snd run) !! N = Some m
  ∧ (∀ processor rp ua rest c called w',
       is_Some (files w' !! N) →
       page_loop processor rp ua (N :: rest) c called w'
       = page_loop processor rp ua rest c called w').
Proof.
  intros HN run. subst run. unfold run_range.
  destruct (run_range_with_keeps_saved env (process_one_page env) start_page end_page
              w N m (process_one_page_frame env) HN) as (Hkeep & Hskip & Hraise).
  split; [exact Hskip|]. split; [exact Hraise|]. split; [exact Hkeep|].
  intros processor rp ua rest c called w' Hpresent.
  rewrite page_loop_cons. by rewrite bool_decide_eq_true_2.
Qed.

(** Page 2 is saved, pages 1 and 2 are asked for: only page 1 is processed,
    and the file of page 2 stays empty. *)
Lemma run_range_checkpoint_witness :
  let w := mkWorld {[ 2 := ∅ ]} [] in
  let run := run_range two_item_env 1 (Some 2) w in
  files w !! 2 = Some ∅
  ∧ (2 ∉ (fst <$> calls (fst run)))
  ∧ ended (fst run) ≠ RaisedInPage 2
  ∧ files (snd run) !! 2 = Some ∅
  ∧ fst run = mkReport [(1, true)] (Some 0) Completed.
Proof.
  intros w run.
  assert (H : files w !! 2 = Some ∅) by reflexivity.
  destruct (run_range_checkpoint two_item_env 1 (Some 2) w 2 ∅ H)
    as (Hskip & Hraise & Hkeep & _).
  split; [exact H|]. split; [exact Hskip|]. split; [exact Hraise|]. split; [exact Hkeep|].
  vm_compute. reflexivity.
Defined.

(** C2 as stated fails for the start page of a run without an end page: the
    file of page 1 exists, the page processor is not called, and yet the
    listing of page 1 is requested, by the detection of the last page. *)
Lemma run_range_requests_saved_start_page :
  let env := stub_env (scripted [] 200) (RobotsLines []) (fun _ => no_document) in
  files page_1_saved !! 1 = Some ∅
  ∧ run_range env 1 None page_1_saved
    = (mkReport [] (Some 0) Completed,
       mkWorld {[ 1 := ∅ ]}
         [UrlOpen "https://example.com/robots.txt";
          Politeness; Get "https://example.com/home/DrugSearch?page=1"])
  ∧ ¬ not_requested env 1 None page_1_saved 1.
Proof.
  intros env.
  assert (Hrun : run_range env 1 None page_1_saved
    = (mkReport [] (Some 0) Completed,
       mkWorld {[ 1 := ∅ ]}
         [UrlOpen "https://example.com/robots.txt";
          Politeness; Get "https://example.com/home/DrugSearch?page=1"]))
    by (vm_compute; reflexivity).
  split; [reflexivity|]. split; [exact Hrun|].
  unfold not_requested. rewrite Hrun. simpl. intros Hnot. apply Hnot.
  change (list_url env 1) with "https://example.com/home/DrugSearch?page=1".
  set_solver.
Qed.

(** C10: in a run without an end page, when the detection fetch of the start
    page gives no response or a status other than 200, the run returns before
    the page loop: the processor is never called, the counter is never
    looked at, no file is written, and the world is the one the single
    [polite_get] of the start page left. *)
Theorem run_range_detection_failure (env : Env)
    (processor : RobotFileParser → string → Z → M (result bool))
    (start_page : Z) (w : world) :
  let loaded := init_robots_parser env (BASE_URL env) w in
  let detection := polite_get env (list_url env start_page) MAX_LIST_RETRIES (snd loaded) in
  absent_or_not_200 (fst detection) →
  let run := run_range_with env processor start_page None w in
  calls (fst run) = [] ∧ final_fails (fst run) = None
  ∧ files (snd run) = files w
  ∧ (∀ rp, fst loaded = Ok rp →
       fst run = mkReport [] None Completed
       ∧ (can_fetch env rp (user_agent env) "/home/DrugSearch" = true →
          can_fetch env rp (user_agent env) "/home/Result" = true →
          snd run = snd detection)).
Proof.
  intros loaded detection Hfail run. subst loaded detection run.
  pose proof (init_robots_parser_files env (BASE_URL env) w) as Hw0.
  destruct (init_robots_parser env (BASE_URL env) w) as [[rp|] w0] eqn:Hinit;
    cbn [fst snd] in *.
  2:{ rewrite (run_range_with_load_raised _ _ _ _ _ _ Hinit). done. }
  pose proof (polite_get_files env (list_url env start_page) MAX_LIST_RETRIES w0) as Hf.
  destruct (can_fetch env rp (user_agent env) "/home/DrugSearch") eqn:H1.
  2:{ rewrite (run_range_gate_denied_any _ _ _ _ _ _ _ Hinit) by (by left).
      split; [done|]. split; [done|]. split; [done|].
      intros rp' [= <-]. split; [done|]. congruence. }
  destruct (can_fetch env rp (user_agent env) "/home/Result") eqn:H2.
  2:{ rewrite (run_range_gate_denied_any _ _ _ _ _ _ _ Hinit) by (by right).
      split; [done|]. split; [done|]. split; [done|].
      intros rp' [= <-]. split; [done|]. congruence. }
  rewrite (run_range_with_auto_failed _ _ _ _ _ _ Hinit H1 H2 Hfail).
  split; [done|]. split; [done|]. split; [cbn [snd]; by rewrite Hf|].
  by intros rp' [= <-].
Qed.

(** The start page answers 500 on each of the three attempts: nothing is
    processed, nothing is written. *)
Lemma run_range_detection_failure_witness :
  let env := stub_env (scripted [] 500) (RobotsLines []) (fun _ => listing_document two_rows) in
  let loaded := init_robots_parser env (BASE_URL env) empty_world in
  absent_or_not_200
    (fst (polite_get env (list_url env 1) MAX_LIST_RETRIES (snd loaded)))
  ∧ fst (run_range env 1 None empty_world) = mkReport [] None Completed
  ∧ files (snd (run_range env 1 None empty_world)) = ∅
  ∧ requests (trace (snd (run_range env 1 None empty_world)))
    = replicate 3 "https://example.com/home/DrugSearch?page=1".
Proof.
  intros env loaded.
  assert (H : absent_or_not_200
                (fst (polite_get env (list_url env 1) MAX_LIST_RETRIES (snd loaded))))
    by (vm_compute; exact I).
  destruct (run_range_detection_failure env (process_one_page env) 1 empty_world H)
    as (_ & _ & Hfiles & Hrep).
  split; [exact H|].
  split; [exact (proj1 (Hrep permissive_rp eq_refl))|].
  split; [exact Hfiles|].
  vm_compute. reflexivity.
Defined.

(** * Further properties of the policy gate *)

(** X4: what the policy answers after the load, by what the fetch of
    robots.txt did.  Where [urljoin] raises on the path, the answer is
    [True], whatever the load did.  Otherwise a failed fetch or an
    undecodable body denies everything; an HTTP error allows everything when
    its status is a 4xx other than 401 and 403 (robots.txt is missing) and
    denies everything otherwise (401, 403, 5xx); rules that were read decide
    on the absolute address, and a rule evaluation that raises counts as
    allowed.  When [urljoin] raises on ["/robots.txt"] itself, the load
    raises and there is no policy. *)
Theorem robots_policy_table (env : Env) (w : world) :
  match robots_url env with
  | Ok robots =>
      ∃ rp,
        fst (init_robots_parser env (BASE_URL env) w) = Ok rp
        ∧ ∀ ua path_or_url,
            can_fetch env rp ua path_or_url
            = match absolute env path_or_url with
              | Ok url =>
                  match robots_fetch env (trace w) robots with
                  | RobotsURLError | RobotsUndecodable => false
                  | RobotsHTTPError code =>
                      bool_decide (400 ≤ code < 500 ∧ code ≠ 401 ∧ code ≠ 403)
                  | RobotsLines lines => default true (robots_rules env lines ua url)
                  end
              | ValueError => true
              end
  | ValueError => fst (init_robots_parser env (BASE_URL env) w) = ValueError
  end.
Proof.
  unfold robots_url, init_robots_parser.
  destruct (urljoin env (BASE_URL env) "/robots.txt") as [robots|]; [|done].
  unfold bind, rp_read, ret. simpl.
  destruct (robots_fetch env (trace w) robots) as [|code| |lines] eqn:Hfetch.
  - eexists. split; [reflexivity|]. intros ua p. unfold can_fetch. fold (absolute env p).
    by destruct (absolute env p).
  - destruct ((code =? 401) || (code =? 403)) eqn:H1.
    + eexists. split; [reflexivity|]. intros ua p. unfold can_fetch. fold (absolute env p).
      destruct (absolute env p); [|done]. unfold rp_can_fetch. simpl.
      rewrite bool_decide_eq_false_2; [done|].
      apply orb_true_iff in H1 as [H1|H1]; apply Z.eqb_eq in H1; lia.
    + apply orb_false_iff in H1 as [H1 H2].
      apply Z.eqb_neq in H1. apply Z.eqb_neq in H2.
      destruct ((400 <=? code) && (code <? 500)) eqn:H3.
      * eexists. split; [reflexivity|]. intros ua p. unfold can_fetch.
        fold (absolute env p). destruct (absolute env p); [|done].
        unfold rp_can_fetch. simpl.
        apply andb_true_iff in H3 as [H3 H4].
        apply Z.leb_le in H3. apply Z.ltb_lt in H4.
        by rewrite bool_decide_eq_true_2.
      * eexists. split; [reflexivity|]. intros ua p. unfold can_fetch.
        fold (absolute env p). destruct (absolute env p); [|done].
        unfold rp_can_fetch. simpl.
        rewrite bool_decide_eq_false_2; [done|].
        apply andb_false_iff in H3 as [H3|H3];
          [apply Z.leb_gt in H3|apply Z.ltb_ge in H3]; lia.
  - eexists. split; [reflexivity|]. intros ua p. unfold can_fetch. fold (absolute env p).
    by destruct (absolute env p).
  - eexists. split; [reflexivity|]. intros ua p. unfold can_fetch. fold (absolute env p).
    destruct (absolute env p); [|done]. unfold rp_can_fetch. simpl.
    by destruct (robots_rules env lines ua a).
Qed.

(** robots.txt is answered with 403: every path that can be joined is
    denied, and the path ["//["], on which [urljoin] raises, is allowed. *)
Lemma robots_policy_table_witness :
  ∃ rp,
    fst (init_robots_parser forbidden_robots_env (BASE_URL forbidden_robots_env) empty_world)
    = Ok rp
    ∧ can_fetch forbidden_robots_env rp "test-agent" "/home/DrugSearch" = false
    ∧ can_fetch forbidden_robots_env rp "test-agent" "//[" = true.
Proof.
  destruct (robots_policy_table forbidden_robots_env empty_world) as (rp & Hrp & Htable).
  exists rp. split; [exact Hrp|].
  split; [exact (Htable "test-agent" "/home/DrugSearch")|exact (Htable "test-agent" "//[")].
Defined.

(** X5: when the loaded policy denies the listing path or the detail path,
    the run returns at once: the page processor is never called, no page is
    requested and the output directory is not touched. *)
Theorem run_range_gate_denied (env : Env)
    (processor : RobotFileParser → string → Z → M (result bool))
    (start_page : Z) (end_page : option Z) (w w0 : world) (rp : RobotFileParser) :
  init_robots_parser env (BASE_URL env) w = (Ok rp, w0) →
  can_fetch env rp (user_agent env) "/home/DrugSearch" = false
  ∨ can_fetch env rp (user_agent env) "/home/Result" = false →
  ∃ robots,
    robots_url env = Ok robots
    ∧ run_range_with env processor start_page end_page w
      = (mkReport [] None Completed, emit [UrlOpen robots] w).
Proof.
  intros Hinit Hdeny.
  destruct (init_robots_parser_returns env (BASE_URL env) w rp w0 Hinit) as (robots & Hjoin & ->).
  exists robots. split; [exact Hjoin|].
  unfold run_range_with, bind. rewrite Hinit.
  destruct (can_fetch env rp (user_agent env) "/home/DrugSearch"); simpl; [|done].
  destruct Hdeny as [Hdeny|Hdeny]; [done|]. by rewrite Hdeny.
Qed.

(** robots.txt answers 403: a run over the pages 1 to 3 stops after the
    load. *)
Lemma run_range_gate_denied_witness :
  let rp := mkRobotFileParser "https://example.com/robots.txt" true false 0 [] in
  let w0 := mkWorld ∅ [UrlOpen "https://example.com/robots.txt"] in
  init_robots_parser forbidden_robots_env (BASE_URL forbidden_robots_env) empty_world
  = (Ok rp, w0)
  ∧ (can_fetch forbidden_robots_env rp (user_agent forbidden_robots_env) "/home/DrugSearch"
     = false
     ∨ can_fetch forbidden_robots_env rp (user_agent forbidden_robots_env) "/home/Result"
       = false)
  ∧ ∃ robots,
      robots_url forbidden_robots_env = Ok robots
      ∧ run_range forbidden_robots_env 1 (Some 3) empty_world
        = (mkReport [] None Completed, emit [UrlOpen robots] empty_world).
Proof.
  intros rp w0.
  assert (Hinit : init_robots_parser forbidden_robots_env (BASE_URL forbidden_robots_env)
                    empty_world = (Ok rp, w0)) by reflexivity.
  assert (H : can_fetch forbidden_robots_env rp (user_agent forbidden_robots_env)
                "/home/DrugSearch" = false
              ∨ can_fetch forbidden_robots_env rp (user_agent forbidden_robots_env)
                  "/home/Result" = false) by (left; reflexivity).
  split; [exact Hinit|]. split; [exact H|].
  exact (run_range_gate_denied forbidden_robots_env (process_one_page forbidden_robots_env)
           1 (Some 3) empty_world w0 rp Hinit H).
Defined.

(** * Further properties of the range runner *)

(** The world a run leaves when it does nothing but load robots.txt. *)
Lemma run_range_with_all_saved env processor start_page end_page w :
  (∀ p, start_page ≤ p ≤ end_page → is_Some (files w !! p)) →
  calls (fst (run_range_with env processor start_page (Some end_page) w)) = []
  ∧ (∀ p, ended (fst (run_range_with env processor start_page (Some end_page) w))
          ≠ RaisedInPage p)
  ∧ snd (run_range_with env processor start_page (Some end_page) w)
    = match robots_url env with
      | Ok robots => emit [UrlOpen robots] w
      | ValueError => w
      end.
Proof.
  intros Hsaved.
  pose proof (init_robots_parser_cases env (BASE_URL env) w) as Hc. unfold robots_url.
  destruct (urljoin env (BASE_URL env) "/robots.txt") as [robots|].
  2:{ by rewrite (run_range_with_load_raised _ _ _ _ _ _ Hc). }
  destruct Hc as [rp Hinit].
  destruct (can_fetch env rp (user_agent env) "/home/DrugSearch") eqn:H1;
    [|by rewrite (run_range_gate_denied_any _ _ _ _ _ _ _ Hinit) by (by left)].
  destruct (can_fetch env rp (user_agent env) "/home/Result") eqn:H2;
    [|by rewrite (run_range_gate_denied_any _ _ _ _ _ _ _ Hinit) by (by right)].
  rewrite (run_range_with_explicit _ _ _ _ _ _ _ Hinit H1 H2).
  rewrite page_loop_all_saved; [done|].
  intros p Hp. apply elem_of_seqZ in Hp. rewrite files_emit. apply Hsaved. lia.
Qed.

(** X10: when every page of the given range is already saved, a run with an
    end page only loads robots.txt: the processor is never called, no page
    is requested and the output directory is as it was. *)
Theorem run_range_all_saved (env : Env)
    (processor : RobotFileParser → string → Z → M (result bool))
    (start_page end_page : Z) (w : world) :
  (∀ p, start_page ≤ p ≤ end_page → is_Some (files w !! p)) →
  calls (fst (run_range_with env processor start_page (Some end_page) w)) = []
  ∧ (∀ p, ended (fst (run_range_with env processor start_page (Some end_page) w))
          ≠ RaisedInPage p)
  ∧ snd (run_range_with env processor start_page (Some end_page) w)
    = match robots_url env with
      | Ok robots => emit [UrlOpen robots] w
      | ValueError => w
      end.
Proof.
  intros Hsaved.
  pose proof (init_robots_parser_cases env (BASE_URL env) w) as Hc. unfold robots_url.
  destruct (urljoin env (BASE_URL env) "/robots.txt") as [robots|].
  2:{ by rewrite (run_range_with_load_raised _ _ _ _ _ _ Hc). }
  destruct Hc as [rp Hinit].
  destruct (can_fetch env rp (user_agent env) "/home/DrugSearch") eqn:H1;
    [|by rewrite (run_range_gate_denied_any _ _ _ _ _ _ _ Hinit) by (by left)].
  destruct (can_fetch env rp (user_agent env) "/home/Result") eqn:H2;
    [|by rewrite (run_range_gate_denied_any _ _ _ _ _ _ _ Hinit) by (by right)].
  rewrite (run_range_with_explicit _ _ _ _ _ _ _ Hinit H1 H2).
  rewrite page_loop_all_saved; [done|].
  intros p Hp. apply elem_of_seqZ in Hp. rewrite files_emit. apply Hsaved. lia.
Qed.

(** The pages 1 and 2 are saved: a run over them loads robots.txt and does
    nothing else. *)
Lemma run_range_all_saved_witness :
  let w := mkWorld {[ 1 := ∅; 2 := ∅ ]} [] in
  (∀ p, 1 ≤ p ≤ 2 → is_Some (files w !! p))
  ∧ calls (fst (run_range two_item_env 1 (Some 2) w)) = []
  ∧ snd (run_range two_item_env 1 (Some 2) w)
    = emit [UrlOpen "https://example.com/robots.txt"] w.
Proof.
  intros w.
  assert (H : ∀ p, 1 ≤ p ≤ 2 → is_Some (files w !! p)).
  { intros p Hp. assert (p = 1 ∨ p = 2) as [-> | ->] by lia; by eexists. }
  split; [exact H|].
  destruct (run_range_all_saved two_item_env (process_one_page two_item_env) 1 2 w H)
    as (Hcalls & _ & Hworld).
  split; [exact Hcalls|exact Hworld].
Defined.

(** X11: after a run with an end page that was not stopped by the failure
    counter, every page of the range is saved or has a failed call in the
    report of the run. *)
Theorem run_range_completes (env : Env) (start_page end_page : Z) (w : world)
    (c p : Z) :
  final_fails (fst (run_range env start_page (Some end_page) w)) = Some c →
  c < STOP_ON_CONSECUTIVE_LIST_FAILS →
  start_page ≤ p ≤ end_page →
  is_Some (files (snd (run_range env start_page (Some end_page) w)) !! p)
  ∨ (p, false) ∈ calls (fst (run_range env start_page (Some end_page) w)).
Proof.
  unfold run_range. intros Hfinal Hc Hp.
  destruct (run_range_with_shape env (process_one_page env) start_page (Some end_page) w)
    as [(e & Hrep & _)|(rp & w0 & pages & w1 & _ & _ & _ & Hpages & Hrun)].
  { by rewrite Hrep in Hfinal. }
  rewrite (Hpages end_page eq_refl) in Hrun. rewrite Hrun in Hfinal |- *.
  cbn [fst snd finish calls final_fails] in *.
  destruct (exit_how _) eqn:Hhow; try done. injection Hfinal as Hfinal.
  apply page_loop_complete;
    [apply process_one_page_frame|apply process_one_page_saves|done|lia|].
  apply elem_of_seqZ. lia.
Qed.

(** The two-item site, pages 1 and 2: page 1 is saved, page 2 has a failed
    call. *)
Lemma run_range_completes_witness :
  let run := run_range two_item_env 1 (Some 2) empty_world in
  final_fails (fst run) = Some 1
  ∧ 1 < STOP_ON_CONSECUTIVE_LIST_FAILS
  ∧ (1 ≤ 2 ≤ 2)
  ∧ (is_Some (files (snd run) !! 2) ∨ (2, false) ∈ calls (fst run))
  ∧ calls (fst run) = [(1, true); (2, false)].
Proof.
  intros run.
  assert (H1 : final_fails (fst run) = Some 1) by (vm_compute; reflexivity).
  assert (H2 : 1 < STOP_ON_CONSECUTIVE_LIST_FAILS) by reflexivity.
  assert (H3 : 1 ≤ 2 ≤ 2) by lia.
  split; [exact H1|]. split; [exact H2|]. split; [exact H3|].
  split; [exact (run_range_completes two_item_env 1 2 empty_world 1 2 H1 H2 H3)|].
  vm_compute. reflexivity.
Defined.

(** X12: when a run with an end page reached the end of its page loop and
    every call of the page processor returned [true], a second run over the
    same range, started from the world the first one left, calls the
    processor on no page, requests no page and leaves the output directory
    as it is. *)
Theorem run_range_rerun_idle (env : Env) (start_page end_page : Z) (w : world) :
  let first := run_range env start_page (Some end_page) w in
  is_Some (final_fails (fst first)) →
  Forall (fun call => snd call = true) (calls (fst first)) →
  ∃ robots,
    robots_url env = Ok robots
    ∧ calls (fst (run_range env start_page (Some end_page) (snd first))) = []
    ∧ snd (run_range env start_page (Some end_page) (snd first))
      = emit [UrlOpen robots] (snd first).
Proof.
  intros first [c Hfinal] Hall. subst first. unfold run_range in *.
  destruct (run_range_with_shape env (process_one_page env) start_page (Some end_page) w)
    as [(e & Hrep & _)|(rp & w0 & pages & w1 & Hinit & _ & _ & Hpages & Hrun)].
  { by rewrite Hrep in Hfinal. }
  destruct (init_robots_parser_returns env (BASE_URL env) w rp w0 Hinit)
    as (robots & Hjoin & ->).
  exists robots. split; [exact Hjoin|].
  assert (∀ p, start_page ≤ p ≤ end_page →
            is_Some (files (snd (run_range_with env (process_one_page env) start_page
                                   (Some end_page) w)) !! p)) as Hsaved.
  { intros p Hp.
    rewrite (Hpages end_page eq_refl) in Hrun. rewrite Hrun in Hfinal, Hall |- *.
    cbn [fst snd finish calls final_fails] in *.
    set (loop := page_loop (process_one_page env) rp (user_agent env)
                   (range start_page (end_page + 1)) 0 [] w1) in *.
    destruct (exit_how (fst loop)) eqn:Hhow; try done.
    destruct (page_loop_counter (process_one_page env) rp (user_agent env)
                (range start_page (end_page + 1)) 0 w1) as (Hcount & _ & _); [done|].
    fold loop in Hcount.
    assert (exit_fails (fst loop) = 0) as Hzero.
    { rewrite Hcount.
      destruct (count_fails_successes 0 (snd <$> exit_calls (fst loop))) as [->| ->];
        [|done..].
      apply Forall_fmap. eapply Forall_impl; [exact Hall|]. by intros [page ok]. }
    destruct (page_loop_complete (process_one_page env) rp (user_agent env)
                (range start_page (end_page + 1)) 0 w1
                (process_one_page_frame env) (process_one_page_saves env)) with (p := p)
      as [Hdone|Hfailed].
    - done.
    - fold loop. rewrite Hzero. done.
    - apply elem_of_seqZ. lia.
    - exact Hdone.
    - rewrite Forall_forall in Hall. by specialize (Hall _ Hfailed). }
  destruct (run_range_with_all_saved env (process_one_page env) start_page end_page _ Hsaved)
    as (Hcalls & _ & Hworld).
  split; [exact Hcalls|]. rewrite Hworld. unfold robots_url. by rewrite Hjoin.
Qed.

(** The page 1 of the two-item site is processed with success; the second
    run over page 1 only loads robots.txt again. *)
Lemma run_range_rerun_idle_witness :
  let first := run_range two_item_env 1 (Some 1) empty_world in
  is_Some (final_fails (fst first))
  ∧ Forall (fun call => snd call = true) (calls (fst first))
  ∧ ∃ robots,
      robots_url two_item_env = Ok robots
      ∧ calls (fst (run_range two_item_env 1 (Some 1) (snd first))) = []
      ∧ snd (run_range two_item_env 1 (Some 1) (snd first))
        = emit [UrlOpen robots] (snd first).
Proof.
  intros first.
  assert (H1 : is_Some (final_fails (fst first))) by (exists 0; vm_compute; reflexivity).
  assert (H2 : Forall (fun call => snd call = true) (calls (fst first))).
  { replace (calls (fst first)) with [(1, true)] by (vm_compute; reflexivity).
    by repeat constructor. }
  split; [exact H1|]. split; [exact H2|].
  exact (run_range_rerun_idle two_item_env 1 1 empty_world H1 H2).
Defined.



Lemma requests_elem url es : url ∈ requests es → Get url ∈ es.
Proof.
  unfold requests. intros (e & He & Hurl)%list_elem_of_omap.
  destruct e; try done. by injection Hurl as ->.
Qed.

Lemma replicate_head_elem (n : nat) (url : string) :
  (1 ≤ n)%nat → url ∈ replicate n url.
Proof. destruct n; [lia|]. intros _. left. Qed.

(** The page loop with [process_one_page] only adds events of the session,
    and every request among them comes after a politeness delay. *)
Lemma page_loop_real_trace env rp ua pages : ∀ c called w,
  ∃ es,
    trace (snd (page_loop (process_one_page env) rp ua pages c called w)) = trace w ++ es
    ∧ well_paced es.
Proof.
  induction pages as [|page rest IH]; intros c called w.
  - exists []. by rewrite app_nil_r.
  - rewrite page_loop_cons. destruct (bool_decide _); [apply IH|].
    destruct (process_one_page_events env rp ua page w)
      as (es0 & es1 & n & Htrace & _ & _ & _ & _ & _ & _ & Hp).
    destruct (process_one_page env rp ua page w) as [res w1]. simpl in Htrace.
    assert (∀ c1 called1, ∃ es,
              trace (snd (page_loop (process_one_page env) rp ua rest c1 called1 w1))
              = trace w ++ es ∧ well_paced es) as Hnext.
    { intros c1 called1. destruct (IH c1 called1 w1) as (es & -> & Hp').
      exists ((es0 ++ es1) ++ es). rewrite Htrace, <- !app_assoc.
      split; [done|]. rewrite app_assoc. by apply well_paced_app. }
    destruct res as [[]|]; [apply Hnext| |].
    + destruct (_ <=? _); [|apply Hnext].
      exists (es0 ++ es1). simpl. by rewrite Htrace.
    + exists (es0 ++ es1). simpl. by rewrite Htrace.
Qed.

(** X14: a run loads robots.txt once, as its first access to the network,
    through [urlopen] and with no sleep before it; every request after that
    goes through the session, and each of them comes right after the sleep
    of [random.uniform(DELAY_MIN, DELAY_MAX)] seconds.  A run whose load
    raises on the address leaves the world as it was. *)
Theorem run_range_paced (env : Env) (start_page : Z) (end_page : option Z) (w : world) :
  match robots_url env with
  | Ok robots =>
      ∃ es,
        trace (snd (run_range env start_page end_page w))
        = trace w ++ UrlOpen robots :: es
        ∧ paced es = true
        ∧ robots_loads es = []
  | ValueError => snd (run_range env start_page end_page w) = w
  end.
Proof.
  unfold run_range.
  pose proof (init_robots_parser_cases env (BASE_URL env) w) as Hc. unfold robots_url.
  destruct (urljoin env (BASE_URL env) "/robots.txt") as [robots|].
  2:{ by rewrite (run_range_with_load_raised _ _ _ _ _ _ Hc). }
  destruct Hc as [rp Hinit].
  assert (Hpack : ∀ w1 es, trace w1 = trace (emit [UrlOpen robots] w) ++ es →
            well_paced es →
            ∃ es', trace w1 = trace w ++ UrlOpen robots :: es'
                   ∧ paced es' = true ∧ robots_loads es' = []).
  { intros w1 es Hw1 [Hp Hl]. exists es. rewrite Hw1, trace_emit, <- app_assoc. done. }
  destruct (can_fetch env rp (user_agent env) "/home/DrugSearch") eqn:H1.
  2:{ rewrite (run_range_gate_denied_any _ _ _ _ _ _ _ Hinit) by (by left).
      apply (Hpack _ []); [by rewrite app_nil_r|done]. }
  destruct (can_fetch env rp (user_agent env) "/home/Result") eqn:H2.
  2:{ rewrite (run_range_gate_denied_any _ _ _ _ _ _ _ Hinit) by (by right).
      apply (Hpack _ []); [by rewrite app_nil_r|done]. }
  destruct end_page as [e|].
  - rewrite (run_range_with_explicit _ _ _ _ _ _ _ Hinit H1 H2). cbv zeta. cbn [snd].
    destruct (page_loop_real_trace env rp (user_agent env) (range start_page (e + 1)) 0 []
                (emit [UrlOpen robots] w)) as (es & Hes & Hp).
    by apply (Hpack _ es).
  - destruct (polite_get_trace env (list_url env start_page) MAX_LIST_RETRIES
                (emit [UrlOpen robots] w)) as (esd & n & Hwd & _ & _ & _ & Hpd).
    destruct (polite_get env (list_url env start_page) MAX_LIST_RETRIES
                (emit [UrlOpen robots] w)) as [resp w1] eqn:Hget.
    simpl in Hwd. subst w1.
    destruct (failed_response resp) eqn:Hfail.
    + apply failed_response_iff in Hfail.
      rewrite (run_range_with_auto_failed _ _ _ _ _ _ Hinit H1 H2) by (by rewrite Hget).
      rewrite Hget. cbn [snd]. by apply (Hpack _ esd).
    + destruct resp as [r|]; [|done].
      apply failed_response_false in Hfail as Hstatus.
      destruct (find_last_page_number env (text r)) as [last|] eqn:Hlast.
      2:{ rewrite (run_range_with_auto_raised _ _ _ _ _ _ _ _ Hinit H1 H2 Hget Hstatus Hlast).
          by apply (Hpack _ esd). }
      rewrite (run_range_with_auto _ _ _ _ _ _ _ _ _ Hinit H1 H2 Hget Hstatus Hlast).
      cbv zeta. cbn [snd].
      destruct (page_loop_real_trace env rp (user_agent env)
                  (start_page :: range (start_page + 1)
                                   (detected_end start_page last + 1)) 0 []
                  (emit esd (emit [UrlOpen robots] w))) as (es & Hes & Hp).
      apply (Hpack _ (esd ++ es)); [|by apply well_paced_app].
      rewrite Hes, (trace_emit esd), <- app_assoc. done.
Qed.

(** The two-item site, page 1: the load of robots.txt comes first, without a
    delay, and each of the five requests after it follows a delay. *)
Lemma run_range_paced_witness :
  ∃ es,
    trace (snd (run_range two_item_env 1 (Some 1) empty_world))
    = UrlOpen "https://example.com/robots.txt" :: es
    ∧ paced es = true ∧ robots_loads es = []
    ∧ length (requests es) = 5%nat.
Proof.
  destruct (run_range_paced two_item_env 1 (Some 1) empty_world) as (es & Hes & Hp & Hl).
  exists es. split; [exact Hes|]. split; [exact Hp|]. split; [exact Hl|].
  assert (Hlen : length (requests (trace (snd (run_range two_item_env 1 (Some 1)
                                                 empty_world)))) = 5%nat)
    by (vm_compute; reflexivity).
  rewrite Hes in Hlen. exact Hlen.
Defined.

(** X15: in a run without an end page, when the start page is not saved yet
    and [find_last_page_number] returns, the listing of the start page is
    requested twice: once by the detection of the last page and once more by
    the page processor, whose call on the start page is the first call of the
    run (or, when it raises, the end of the run).  When
    [find_last_page_number] raises instead, the run ends with that exception
    right after the detection fetch. *)
Theorem run_range_fetches_start_twice (env : Env) (start_page : Z) (w w0 w1 : world)
    (rp : RobotFileParser) (r : Response) :
  init_robots_parser env (BASE_URL env) w = (Ok rp, w0) →
  can_fetch env rp (user_agent env) "/home/DrugSearch" = true →
  can_fetch env rp (user_agent env) "/home/Result" = true →
  polite_get env (list_url env start_page) MAX_LIST_RETRIES w0 = (Some r, w1) →
  status_code r = 200 →
  files w !! start_page = None →
  match find_last_page_number env (text r) with
  | Ok last =>
      ∃ detection processing rest,
        trace (snd (run_range env start_page None w))
        = trace w0 ++ detection ++ processing ++ rest
        ∧ Get (list_url env start_page) ∈ detection
        ∧ Get (list_url env start_page) ∈ processing
        ∧ ((∃ ok, head (calls (fst (run_range env start_page None w)))
                  = Some (start_page, ok))
           ∨ fst (run_range env start_page None w)
             = mkReport [] None (RaisedInPage start_page))
  | ValueError =>
      run_range env start_page None w = (mkReport [] None RaisedInDetection, w1)
      ∧ ∃ detection, trace w1 = trace w0 ++ detection
                     ∧ Get (list_url env start_page) ∈ detection
  end.
Proof.
  intros Hinit H1 H2 Hget Hstatus Hnew. unfold run_range.
  destruct (polite_get_trace env (list_url env start_page) MAX_LIST_RETRIES w0)
    as (esd & n & Hwd & Hreqd & _ & Hnd & _).
  pose proof (polite_get_files env (list_url env start_page) MAX_LIST_RETRIES w0) as Hfiles.
  pose proof (init_robots_parser_files env (BASE_URL env) w) as Hfiles0.
  rewrite Hget in Hwd, Hfiles. rewrite Hinit in Hfiles0. simpl in Hwd, Hfiles, Hfiles0.
  assert (Get (list_url env start_page) ∈ esd) as Hin1.
  { apply requests_elem. rewrite Hreqd. apply replicate_head_elem, Hnd.
    unfold MAX_LIST_RETRIES. lia. }
  destruct (find_last_page_number env (text r)) as [last|] eqn:Hlast.
  2:{ rewrite (run_range_with_auto_raised _ _ _ _ _ _ _ _ Hinit H1 H2 Hget Hstatus Hlast).
      split; [done|]. exists esd. by rewrite Hwd. }
  rewrite (run_range_with_auto _ _ _ _ _ _ _ _ _ Hinit H1 H2 Hget Hstatus Hlast).
  cbv zeta. cbn [fst snd finish calls].
  rewrite page_loop_cons, bool_decide_eq_false_2
    by (rewrite Hfiles, Hfiles0, Hnew; by intros [? ?]).
  destruct (process_one_page_events env rp (user_agent env) start_page w1)
    as (es0 & es1 & k & Htrace & Hreq0 & _ & Hk & _).
  destruct (process_one_page env rp (user_agent env) start_page w1) as [res w2].
  simpl in Htrace.
  assert (Get (list_url env start_page) ∈ es0 ++ es1) as Hin2.
  { apply elem_of_app. left. apply requests_elem. rewrite Hreq0.
    by apply replicate_head_elem, Hk. }
  assert (trace w2 = trace w0 ++ esd ++ (es0 ++ es1) ++ []) as Hw2.
  { rewrite Htrace, Hwd, !trace_emit, app_nil_r, <- !app_assoc. done. }
  assert (∀ c1 ok, ∃ rest,
    trace (snd (page_loop (process_one_page env) rp (user_agent env)
                  (range (start_page + 1) (detected_end start_page last + 1))
                  c1 ([] ++ [(start_page, ok)]) w2))
    = trace w0 ++ esd ++ (es0 ++ es1) ++ rest
    ∧ head (exit_calls (fst (page_loop (process_one_page env) rp (user_agent env)
                  (range (start_page + 1) (detected_end start_page last + 1))
                  c1 ([] ++ [(start_page, ok)]) w2))) = Some (start_page, ok)) as Hnext.
  { intros c1 ok.
    destruct (page_loop_real_trace env rp (user_agent env)
                (range (start_page + 1) (detected_end start_page last + 1))
                c1 ([] ++ [(start_page, ok)]) w2) as (rest & Hrest & _).
    exists rest. split.
    - rewrite Hrest, Hw2, app_nil_r, <- !app_assoc. done.
    - by rewrite page_loop_called. }
  destruct res as [[]|].
  - destruct (Hnext 0 true) as (rest & Hrest & Hhead).
    exists esd, (es0 ++ es1), rest. split; [done|]. split; [done|]. split; [done|].
    left. by exists true.
  - destruct (STOP_ON_CONSECUTIVE_LIST_FAILS <=? 0 + 1) eqn:Hstop; [done|].
    destruct (Hnext (0 + 1) false) as (rest & Hrest & Hhead).
    exists esd, (es0 ++ es1), rest. split; [done|]. split; [done|]. split; [done|].
    left. by exists false.
  - exists esd, (es0 ++ es1), []. cbn [fst snd]. split; [done|]. split; [done|].
    split; [done|]. by right.
Qed.

(** The two-item site: the listing of page 1 is requested by the detection
    and again by the page processor.  A start page whose pagination holds a
    link labelled with a superscript two: [int] raises on it and the run ends
    after the one request of the detection. *)
Lemma run_range_fetches_start_twice_witness :
  let rp := mkRobotFileParser "https://example.com/robots.txt" false false 1 [] in
  let w0 := mkWorld ∅ [UrlOpen "https://example.com/robots.txt"] in
  let listing := "https://example.com/home/DrugSearch?page=1" in
  let w1 := mkWorld ∅ [UrlOpen "https://example.com/robots.txt"; Politeness; Get listing] in
  (init_robots_parser two_item_env (BASE_URL two_item_env) empty_world = (Ok rp, w0)
   ∧ polite_get two_item_env (list_url two_item_env 1) MAX_LIST_RETRIES w0
     = (Some (mkResponse 200 "<table>"), w1)
   ∧ find_last_page_number two_item_env "<table>" = Ok None
   ∧ take 2 (requests (trace (snd (run_range two_item_env 1 None empty_world))))
     = [listing; listing]
   ∧ ∃ detection processing rest,
       trace (snd (run_range two_item_env 1 None empty_world))
       = trace w0 ++ detection ++ processing ++ rest
       ∧ Get (list_url two_item_env 1) ∈ detection
       ∧ Get (list_url two_item_env 1) ∈ processing
       ∧ ((∃ ok, head (calls (fst (run_range two_item_env 1 None empty_world)))
                 = Some (1, ok))
          ∨ fst (run_range two_item_env 1 None empty_world)
            = mkReport [] None (RaisedInPage 1)))
  ∧ (find_last_page_number superscript_env "" = ValueError
     ∧ run_range superscript_env 1 None empty_world
       = (mkReport [] None RaisedInDetection, w1)).
Proof.
  intros rp w0 listing w1. split.
  - assert (Hinit : init_robots_parser two_item_env (BASE_URL two_item_env) empty_world
                    = (Ok rp, w0)) by reflexivity.
    assert (Hget : polite_get two_item_env (list_url two_item_env 1) MAX_LIST_RETRIES w0
                   = (Some (mkResponse 200 "<table>"), w1)) by reflexivity.
    split; [exact Hinit|]. split; [exact Hget|]. split; [reflexivity|].
    split; [vm_compute; reflexivity|].
    exact (run_range_fetches_start_twice two_item_env 1 empty_world w0 w1 rp
             (mkResponse 200 "<table>") Hinit eq_refl eq_refl Hget eq_refl eq_refl).
  - split; [reflexivity|].
    assert (Hinit : init_robots_parser superscript_env (BASE_URL superscript_env) empty_world
                    = (Ok rp, w0)) by reflexivity.
    assert (Hget : polite_get superscript_env (list_url superscript_env 1) MAX_LIST_RETRIES w0
                   = (Some (mkResponse 200 ""), w1)) by reflexivity.
    exact (proj1 (run_range_fetches_start_twice superscript_env 1 empty_world w0 w1 rp
                    (mkResponse 200 "") Hinit eq_refl eq_refl Hget eq_refl eq_refl)).
Defined.

(** X16: the failure counter a run ends with lies between 0 and the
    threshold 5, and it counts the failed calls at the end of the run: the
    calls of the report are calls of the page processor, each made in the
    world the calls before it left, the last [c] of them returned [False],
    and the call before them, if there is one, returned [True]. *)
Theorem run_range_counter_bounds (env : Env)
    (processor : RobotFileParser → string → Z → M (result bool))
    (start_page : Z) (end_page : option Z) (w : world) (c : Z) :
  final_fails (fst (run_range_with env processor start_page end_page w)) = Some c →
  0 ≤ c ≤ STOP_ON_CONSECUTIVE_LIST_FAILS
  ∧ (∃ pre,
       snd <$> calls (fst (run_range_with env processor start_page end_page w))
       = pre ++ replicate (Z.to_nat c) false
       ∧ (pre = [] ∨ last pre = Some true))
  ∧ ∃ rp w0 pages w1,
      init_robots_parser env (BASE_URL env) w = (Ok rp, w0)
      ∧ page_steps processor rp (user_agent env) pages 0 w1
          (calls (fst (run_range_with env processor start_page end_page w))) c Completed
          (snd (run_range_with env processor start_page end_page w)).
Proof.
  destruct (run_range_with_shape env processor start_page end_page w)
    as [(e & Hrep & _)|(rp & w0 & pages & w1 & Hinit & _ & _ & _ & ->)];
    [by rewrite Hrep|].
  destruct (page_loop_counter processor rp (user_agent env) pages 0 w1)
    as (Hcount & _ & Hstop & _); [done|].
  pose proof (page_loop_steps processor rp (user_agent env) pages 0 w1) as Hsteps.
  set (loop := page_loop processor rp (user_agent env) pages 0 [] w1) in *.
  cbv zeta in Hsteps. cbn [fst snd finish calls final_fails].
  destruct (exit_how (fst loop)) eqn:Hhow; try done. intros [= <-].
  split; [|split; [rewrite Hcount; apply count_fails_trailing|]].
  - rewrite Hcount. split; [by apply count_fails_nonneg|].
    assert (Hstop' : ∀ k, (k < length (snd <$> exit_calls (fst loop)))%nat →
              count_fails 0 (take k (snd <$> exit_calls (fst loop)))
              < STOP_ON_CONSECUTIVE_LIST_FAILS).
    { intros k Hk. apply Hstop. by rewrite length_fmap in Hk. }
    destruct (snd <$> exit_calls (fst loop)) as [|ok results _] using rev_ind; [done|].
    rewrite count_fails_snoc.
    specialize (Hstop' (length results)).
    rewrite length_app, take_app_length in Hstop'.
    destruct ok; [done|]. simpl in Hstop'.
    unfold STOP_ON_CONSECUTIVE_LIST_FAILS in *. lia.
  - by exists rp, w0, pages, w1.
Qed.

(** The always-failing processor on the pages 1 to 10: the run ends with the
    counter at 5 after five failed calls. *)
Lemma run_range_counter_bounds_witness :
  let env := stub_env (scripted [] 200) (RobotsLines []) (fun _ => no_document) in
  let run := run_range_with env failing_processor 1 (Some 10) empty_world in
  final_fails (fst run) = Some 5
  ∧ 0 ≤ 5 ≤ STOP_ON_CONSECUTIVE_LIST_FAILS
  ∧ (∃ pre, snd <$> calls (fst run) = pre ++ replicate (Z.to_nat 5) false
            ∧ (pre = [] ∨ last pre = Some true))
  ∧ ∃ rp w0 pages w1,
      init_robots_parser env (BASE_URL env) empty_world = (Ok rp, w0)
      ∧ page_steps failing_processor rp (user_agent env) pages 0 w1
          (calls (fst run)) 5 Completed (snd run).
Proof.
  intros env run.
  assert (H : final_fails (fst run) = Some 5) by reflexivity.
  split; [exact H|].
  exact (run_range_counter_bounds env failing_processor 1 (Some 10) empty_world 5 H).
Defined.

(** * Writes of a run *)

Lemma page_loop_writes env rp ua pages : ∀ c w q m,
  files (snd (page_loop (process_one_page env) rp ua pages c [] w)) !! q = Some m →
  files w !! q = Some m
  ∨ (q, true) ∈ exit_calls (fst (page_loop (process_one_page env) rp ua pages c [] w)).
Proof.
  induction pages as [|page rest IH]; intros c w q m; [by left|].
  rewrite page_loop_cons. destruct (bool_decide _); [apply IH|].
  pose proof (process_one_page_files env rp ua page w) as Hfiles.
  destruct (process_one_page env rp ua page w) as [res w1]. simpl in Hfiles.
  destruct Hfiles as [[Hres Hsame]|[-> [m' Hwrite]]].
  - destruct res as [[]|]; [done| |].
    + destruct (STOP_ON_CONSECUTIVE_LIST_FAILS <=? c + 1).
      * simpl. rewrite Hsame. by left.
      * rewrite page_loop_called. simpl. intros H.
        destruct (IH _ w1 q m H) as [Hq|Hq]; [left; by rewrite <- Hsame|].
        right. by right.
    + simpl. rewrite Hsame. by left.
  - rewrite page_loop_called. simpl. intros H.
    destruct (IH _ w1 q m H) as [Hq|Hq]; [|right; by right].
    rewrite Hwrite in Hq. destruct (decide (page = q)) as [->|Hne].
    + right. left.
    + rewrite lookup_insert_ne in Hq by done. by left.
Qed.

(** X19: a run writes a file only for a page on which the page processor
    returned [true]: whatever is in the output directory after the run was
    there before, unchanged, or belongs to a page with a successful call in
    the report. *)
Theorem run_range_writes_only_successes (env : Env) (start_page : Z)
    (end_page : option Z) (w : world) (q : Z) (m : gmap string string) :
  files (snd (run_range env start_page end_page w)) !! q = Some m →
  files w !! q = Some m
  ∨ (q, true) ∈ calls (fst (run_range env start_page end_page w)).
Proof.
  unfold run_range.
  destruct (run_range_with_shape env (process_one_page env) start_page end_page w)
    as [(e & _ & _ & Hfiles)|(rp & w0 & pages & w1 & _ & _ & Hfiles & _ & ->)].
  - rewrite Hfiles. by left.
  - simpl. intros H. rewrite <- Hfiles. by apply page_loop_writes in H.
Qed.

(** The two-item site, pages 1 and 2: the file of page 1 comes with the
    successful call on page 1. *)
Lemma run_range_writes_only_successes_witness :
  let run := run_range two_item_env 1 (Some 2) empty_world in
  files (snd run) !! 1 = Some {[ "REG-1" := "<html>one</html>" ]}
  ∧ (files empty_world !! 1 = Some {[ "REG-1" := "<html>one</html>" ]}
     ∨ (1, true) ∈ calls (fst run))
  ∧ files (snd run) !! 2 = None.
Proof.
  intros run.
  assert (H : files (snd run) !! 1 = Some {[ "REG-1" := "<html>one</html>" ]})
    by (vm_compute; reflexivity).
  split; [exact H|].
  split; [exact (run_range_writes_only_successes two_item_env 1 (Some 2) empty_world 1 _ H)|].
  vm_compute. reflexivity.
Defined.

(** * File names and addresses *)

Lemma string_app_cons c (s t : string) : String c s +:+ t = String c (s +:+ t).
Proof. reflexivity. Qed.

Lemma string_app_nil_r (s : string) : s +:+ "" = s.
Proof. induction s as [|c s IH]; [done|]. by rewrite string_app_cons, IH. Qed.

Lemma string_app_assoc (s1 s2 s3 : string) : (s1 +:+ s2) +:+ s3 = s1 +:+ (s2 +:+ s3).
Proof. induction s1 as [|c s1 IH]; [done|]. by rewrite !string_app_cons, IH. Qed.

Lemma rev_app_app (s1 : string) : ∀ s2 s3,
  String.rev_app s1 s2 +:+ s3 = String.rev_app s1 (s2 +:+ s3).
Proof.
  induction s1 as [|c s1 IH]; intros s2 s3; simpl; [done|].
  by rewrite IH, string_app_cons.
Qed.

Lemma rev_app_rev (s1 s2 : string) : String.rev_app s1 s2 = String.rev s1 +:+ s2.
Proof. unfold String.rev. by rewrite rev_app_app. Qed.

Lemma string_rev_app (s1 s2 : string) :
  String.rev (s1 +:+ s2) = String.rev s2 +:+ String.rev s1.
Proof.
  unfold String.rev. revert s2. generalize "" at 1 3.
  induction s1 as [|c s1 IH]; intros acc s2; simpl.
  - by rewrite rev_app_app.
  - by rewrite IH.
Qed.

Lemma string_rev_involutive (s : string) : String.rev (String.rev s) = s.
Proof.
  induction s as [|c s IH]; [done|].
  change (String c s) with (String c "" +:+ s) at 1.
  rewrite string_rev_app, string_rev_app, IH. done.
Qed.

Lemma string_app_inv_r (s1 s2 t : string) : s1 +:+ t = s2 +:+ t → s1 = s2.
Proof.
  intros H. apply (f_equal String.rev) in H. rewrite !string_rev_app in H.
  apply (inj (String.app _)) in H.
  by rewrite <- (string_rev_involutive s1), H, string_rev_involutive.
Qed.

Lemma digit_of_pretty_N_char (d : N) :
  (d < 10)%N → Z.of_nat (nat_of_ascii (pretty_N_char d)) - 48 = Z.of_N d.
Proof.
  intros Hd.
  assert (d = 0 ∨ d = 1 ∨ d = 2 ∨ d = 3 ∨ d = 4 ∨ d = 5 ∨ d = 6 ∨ d = 7 ∨ d = 8 ∨ d = 9)%N
    as Hcases by lia.
  repeat (destruct Hcases as [->|Hcases]; [reflexivity|]). by subst.
Qed.

(** Reading back the digits that [pretty] writes. *)
Lemma int_digits_pretty_N_go (x : N) : ∀ s,
  int_digits 0 (pretty_N_go x s) = int_digits (Z.of_N x) s.
Proof.
  induction (N.lt_wf_0 x) as [x _ IH]; intros s.
  destruct (decide (x = 0)%N) as [->|Hx]; [by rewrite pretty_N_go_0|].
  rewrite pretty_N_go_step by lia.
  rewrite IH by (apply N.div_lt; lia). simpl.
  rewrite digit_of_pretty_N_char by (apply N.mod_lt; lia).
  f_equal. rewrite <- N2Z.inj_mul with (n := 10%N), <- N2Z.inj_add.
  f_equal. rewrite <- N.div_mod by lia. done.
Qed.

Lemma pretty_Z_pos (p : positive) : pretty (Z.pos p) = pretty_N_go (N.pos p) "".
Proof.
  unfold pretty, pretty_Z, pretty, pretty_positive, pretty, pretty_N.
  by rewrite decide_False.
Qed.

Lemma digits_value_pretty_abs (n : Z) : digits_value (pretty (Z.abs n)) = Z.abs n.
Proof.
  unfold digits_value. destruct n as [|p|p]; [done| |].
  - change (Z.abs (Z.pos p)) with (Z.pos p).
    by rewrite pretty_Z_pos, int_digits_pretty_N_go.
  - change (Z.abs (Z.neg p)) with (Z.pos p).
    by rewrite pretty_Z_pos, int_digits_pretty_N_go.
Qed.

Lemma digits_value_zeros k s : digits_value (zeros k +:+ s) = digits_value s.
Proof. induction k as [|k IH]; [done|]. exact IH. Qed.

Lemma pretty_abs_no_dash (n : Z) s : pretty (Z.abs n) ≠ "-" +:+ s.
Proof.
  destruct n as [|p|p]; [done| |].
  - change (Z.abs (Z.pos p)) with (Z.pos p).
    rewrite pretty_Z_pos. by apply pretty_N_go_ne_dash.
  - change (Z.abs (Z.neg p)) with (Z.pos p).
    rewrite pretty_Z_pos. by apply pretty_N_go_ne_dash.
Qed.

Lemma zeros_pretty_no_dash k (n : Z) s : zeros k +:+ pretty (Z.abs n) ≠ "-" +:+ s.
Proof. destruct k; [apply pretty_abs_no_dash|done]. Qed.

Lemma format_03d_inj p q : format_03d p = format_03d q → p = q.
Proof.
  unfold format_03d.
  destruct (p <? 0) eqn:Hp; destruct (q <? 0) eqn:Hq; intros H.
  - apply (inj (String.app "-")) in H. apply (f_equal digits_value) in H.
    rewrite !digits_value_zeros, !digits_value_pretty_abs in H.
    apply Z.ltb_lt in Hp. apply Z.ltb_lt in Hq. lia.
  - symmetry in H. by apply zeros_pretty_no_dash in H.
  - by apply zeros_pretty_no_dash in H.
  - apply (f_equal digits_value) in H. rewrite !digits_value_zeros, !digits_value_pretty_abs in H.
    apply Z.ltb_ge in Hp. apply Z.ltb_ge in Hq. lia.
Qed.

(** The file names the format gives. *)
Example page_file_name_examples :
  page_file_name 7 = "page_007.json"
  ∧ page_file_name 42 = "page_042.json"
  ∧ page_file_name 1234 = "page_1234.json"
  ∧ page_file_name 0 = "page_000.json"
  ∧ page_file_name (-5) = "page_-05.json".
Proof. repeat split; reflexivity. Qed.

(** X17: two different page indices never share an output file: the file
    name [page_NNN.json] determines the page index. *)
Theorem page_file_name_distinct (p q : Z) :
  p ≠ q → page_file_name p ≠ page_file_name q.
Proof.
  intros Hne H. apply Hne. unfold page_file_name in H.
  apply (inj (String.app "page_")) in H.
  apply string_app_inv_r in H. by apply format_03d_inj.
Qed.

Lemma page_file_name_distinct_witness :
  7 ≠ 1007 ∧ page_file_name 7 ≠ page_file_name 1007.
Proof.
  assert (H : 7 ≠ 1007) by lia.
  split; [exact H|exact (page_file_name_distinct 7 1007 H)].
Defined.

(** X18: two different page indices never share a listing address. *)
Theorem list_url_distinct (env : Env) (p q : Z) :
  p ≠ q → list_url env p ≠ list_url env q.
Proof.
  intros Hne H. apply Hne. unfold list_url in H.
  apply (inj (String.app _)) in H. apply (inj (String.app _)) in H.
  by apply (inj pretty) in H.
Qed.

Lemma list_url_distinct_witness :
  1 ≠ 2 ∧ list_url two_item_env 1 ≠ list_url two_item_env 2.
Proof.
  assert (H : 1 ≠ 2) by lia.
  split; [exact H|exact (list_url_distinct two_item_env 1 2 H)].
Defined.
